(** * An in-memory user store with a uniqueness index on e-mail

    Shallow embedding of the Go packages [internal/domain],
    [internal/repository] and [internal/service], together with the parts
    of the Go standard library they call ([unicode/utf8], [unicode],
    [strings], [regexp]).

    Conventions.
    - A Go [string] is a sequence of bytes: it is a Rocq [string] (a list
      of 8-bit [ascii]); the helpers of the standard library work on
      [list ascii].
    - A [rune], an index and Go's [int] are [Z].
    - [time.Time] is a [Z] (an instant); only its order and equality are used.
    - The two Go maps of the repository are [gmap]s.  The primary map holds
      pointers to private clones, so it is modelled by value; a missing key
      reads as the nil pointer, [None].
    - Every repository method takes the store's lock for its whole body, so
      each one is an atomic state transformer [repo -> result * repo]. *)

From Stdlib Require Import ZArith NArith Ascii String List Bool Lia DecimalString.
From stdpp Require Import gmap strings list fin_maps.

Local Open Scope Z_scope.

(** ** Package [unicode/utf8] *)

Module utf8.

Definition RuneError : Z := 0xFFFD.
Definition RuneSelf : Z := 0x80.
Definition MaxRune : Z := 0x10FFFF.
Definition UTFMax : Z := 4.

Definition surrogateMin : Z := 0xD800.
Definition surrogateMax : Z := 0xDFFF.

Definition locb : Z := 0x80.
Definition hicb : Z := 0xBF.

Definition maskx : Z := 0x3F.
Definition mask2 : Z := 0x1F.
Definition mask3 : Z := 0x0F.
Definition mask4 : Z := 0x07.

Definition rune1Max : Z := 0x7F.
Definition rune2Max : Z := 0x7FF.
Definition rune3Max : Z := 0xFFFF.

(** The numeric value of a byte, and the byte of a number below 256. *)
Definition val (c : ascii) : Z := Z.of_N (N_of_ascii c).
Definition byte (x : Z) : ascii := ascii_of_N (Z.to_N (Z.land x 0xFF)).

(** The table [first] with [acceptRanges]: for a leading byte of a
    multi-byte sequence, the length of the sequence and the range the
    second byte must lie in; [None] for the bytes marked invalid. *)
Definition first (s0 : Z) : option (Z * Z * Z) :=
  if (0xC2 <=? s0) && (s0 <=? 0xDF) then Some (2, locb, hicb)
  else if s0 =? 0xE0 then Some (3, 0xA0, hicb)
  else if (0xE1 <=? s0) && (s0 <=? 0xEC) then Some (3, locb, hicb)
  else if s0 =? 0xED then Some (3, locb, 0x9F)
  else if (0xEE <=? s0) && (s0 <=? 0xEF) then Some (3, locb, hicb)
  else if s0 =? 0xF0 then Some (4, 0x90, hicb)
  else if (0xF1 <=? s0) && (s0 <=? 0xF3) then Some (4, locb, hicb)
  else if s0 =? 0xF4 then Some (4, locb, 0x8F)
  else None.

Definition outside (lo hi x : Z) : bool := (x <? lo) || (hi <? x).

(** [DecodeRuneInString s] is the first rune of [s] and its width in
    bytes; [(RuneError, 0)] on the empty string and [(RuneError, 1)] on
    an invalid encoding. *)
Definition DecodeRuneInString (s : list ascii) : Z * Z :=
  match s with
  | [] => (RuneError, 0)
  | c0 :: t0 =>
    let s0 := val c0 in
    if s0 <? RuneSelf then (s0, 1)
    else
      match first s0 with
      | None => (RuneError, 1)
      | Some (sz, lo, hi) =>
        if Z.of_nat (length s) <? sz then (RuneError, 1)
        else
          match t0 with
          | [] => (RuneError, 1)
          | c1 :: t1 =>
            let s1 := val c1 in
            if outside lo hi s1 then (RuneError, 1)
            else if sz <=? 2 then
              (Z.lor (Z.shiftl (Z.land s0 mask2) 6) (Z.land s1 maskx), 2)
            else
              match t1 with
              | [] => (RuneError, 1)
              | c2 :: t2 =>
                let s2 := val c2 in
                if outside locb hicb s2 then (RuneError, 1)
                else if sz <=? 3 then
                  (Z.lor (Z.lor (Z.shiftl (Z.land s0 mask3) 12)
                                (Z.shiftl (Z.land s1 maskx) 6))
                         (Z.land s2 maskx), 3)
                else
                  match t2 with
                  | [] => (RuneError, 1)
                  | c3 :: _ =>
                    let s3 := val c3 in
                    if outside locb hicb s3 then (RuneError, 1)
                    else
                      (Z.lor (Z.lor (Z.lor (Z.shiftl (Z.land s0 mask4) 18)
                                           (Z.shiftl (Z.land s1 maskx) 12))
                                    (Z.shiftl (Z.land s2 maskx) 6))
                             (Z.land s3 maskx), 4)
                  end
              end
          end
      end
  end.

Definition RuneStart (b : Z) : bool := negb (Z.land b 0xC0 =? 0x80).

(** The backward scan of [DecodeLastRuneInString]:
    [for start--; start >= lim; start-- { if RuneStart(s[start]) { break } }],
    entered with [start] already decremented; [n] counts the indices
    from [start] down to [lim] that are still to be tested. *)
Fixpoint scanBack (s : list ascii) (n : nat) (start : Z) : Z :=
  match n with
  | O => start
  | S n' =>
    match s !! Z.to_nat start with
    | Some c => if RuneStart (val c) then start else scanBack s n' (start - 1)
    | None => start
    end
  end.

Definition DecodeLastRuneInString (s : list ascii) : Z * Z :=
  let end_ := Z.of_nat (length s) in
  if end_ =? 0 then (RuneError, 0)
  else
    let start := end_ - 1 in
    match s !! Z.to_nat start with
    | None => (RuneError, 0)
    | Some c =>
      let r := val c in
      if r <? RuneSelf then (r, 1)
      else
        let lim := Z.max 0 (end_ - UTFMax) in
        let start := scanBack s (Z.to_nat (start - lim)) (start - 1) in
        let start := Z.max 0 start in
        let '(r, size) := DecodeRuneInString (drop (Z.to_nat start) s) in
        if negb (start + size =? end_) then (RuneError, 1) else (r, size)
    end.

(** [AppendRune]/[EncodeRune]: the UTF-8 encoding of a non-negative
    rune; runes out of range and surrogate halves are written as
    [RuneError]. *)
Definition tx : Z := 0x80.
Definition t2 : Z := 0xC0.
Definition t3 : Z := 0xE0.
Definition t4 : Z := 0xF0.

Definition encode3 (r : Z) : list ascii :=
  [byte (Z.lor t3 (Z.shiftr r 12));
   byte (Z.lor tx (Z.land (Z.shiftr r 6) maskx));
   byte (Z.lor tx (Z.land r maskx))].

Definition EncodeRune (r : Z) : list ascii :=
  if r <=? rune1Max then [byte r]
  else if r <=? rune2Max then
    [byte (Z.lor t2 (Z.shiftr r 6)); byte (Z.lor tx (Z.land r maskx))]
  else if (MaxRune <? r) || ((surrogateMin <=? r) && (r <=? surrogateMax)) then
    encode3 RuneError
  else if r <=? rune3Max then encode3 r
  else
    [byte (Z.lor t4 (Z.shiftr r 18));
     byte (Z.lor tx (Z.land (Z.shiftr r 12) maskx));
     byte (Z.lor tx (Z.land (Z.shiftr r 6) maskx));
     byte (Z.lor tx (Z.land r maskx))].

End utf8.

(** ** Package [unicode] *)

Module unicode.

Definition MaxASCII : Z := 0x7F.
Definition MaxLatin1 : Z := 0xFF.

(** The [White_Space] range table above Latin-1. *)
Definition White_Space_above_Latin1 (r : Z) : bool :=
  (r =? 0x1680) || ((0x2000 <=? r) && (r <=? 0x200A))
  || (r =? 0x2028) || (r =? 0x2029) || (r =? 0x202F)
  || (r =? 0x205F) || (r =? 0x3000).

Definition IsSpace (r : Z) : bool :=
  if (0 <=? r) && (r <=? MaxLatin1) then
    (* '\t', '\n', '\v', '\f', '\r', ' ', U+0085 (NEL), U+00A0 (NBSP) *)
    ((0x09 <=? r) && (r <=? 0x0D)) || (r =? 0x20) || (r =? 0x85) || (r =? 0xA0)
  else White_Space_above_Latin1 r.

(** The case tables of the Unicode standard ([unicode.CaseRanges]) are
    data of the Go distribution, not of this repository: the development
    is parametric in the lower-case mapping of the runes above ASCII. *)
Class CaseRanges := { To_LowerCase : Z -> Z }.

Definition ToLower `{CaseRanges} (r : Z) : Z :=
  if r <=? MaxASCII then
    if (65 <=? r) && (r <=? 90) then r + (97 - 65) else r
  else To_LowerCase r.

End unicode.

(** ** Package [strings] *)

Module gostrings.
Import utf8.

(** [asciiSpace]: '\t', '\n', '\v', '\f', '\r', ' '. *)
Definition asciiSpace (c : Z) : bool :=
  ((0x09 <=? c) && (c <=? 0x0D)) || (c =? 0x20).

(** [indexFunc]: the byte index of the first rune [r] of [s] with
    [f r = truth], or [-1].  [for i, r := range s] decodes one rune at
    index [i] and moves on by its width: [skip] is the number of bytes
    of the current rune still to be stepped over. *)
Fixpoint indexFunc_at (f : Z -> bool) (truth : bool) (skip : nat)
         (s : list ascii) (i : Z) : Z :=
  match s with
  | [] => -1
  | _ :: t =>
    match skip with
    | S k => indexFunc_at f truth k t (i + 1)
    | O =>
      let '(r, w) := DecodeRuneInString s in
      if Bool.eqb (f r) truth then i
      else indexFunc_at f truth (Z.to_nat w - 1) t (i + 1)
    end
  end.

Definition indexFunc (s : list ascii) (f : Z -> bool) (truth : bool) : Z :=
  indexFunc_at f truth 0 s 0.

(** [lastIndexFunc]:
    [for i := len(s); i > 0; { r, size := DecodeLastRuneInString(s[0:i]);
      i -= size; if f(r) == truth { return i } }; return -1]. *)
Fixpoint lastIndexFunc_at (f : Z -> bool) (truth : bool) (s : list ascii)
         (skip : nat) (i : nat) : Z :=
  match i with
  | O => -1
  | S i' =>
    match skip with
    | S k => lastIndexFunc_at f truth s k i'
    | O =>
      let '(r, size) := DecodeLastRuneInString (take i s) in
      if Bool.eqb (f r) truth then Z.of_nat i - size
      else lastIndexFunc_at f truth s (Z.to_nat size - 1) i'
    end
  end.

Definition lastIndexFunc (s : list ascii) (f : Z -> bool) (truth : bool) : Z :=
  lastIndexFunc_at f truth s 0 (length s).

Definition TrimLeftFunc (s : list ascii) (f : Z -> bool) : list ascii :=
  let i := indexFunc s f false in
  if i =? -1 then [] else drop (Z.to_nat i) s.

Definition TrimRightFunc (s : list ascii) (f : Z -> bool) : list ascii :=
  let i := lastIndexFunc s f false in
  let i :=
    match s !! Z.to_nat i with
    | Some c =>
      if (0 <=? i) && (RuneSelf <=? val c) then
        i + snd (DecodeRuneInString (drop (Z.to_nat i) s))
      else i + 1
    | None => i + 1
    end in
  take (Z.to_nat i) s.

Definition TrimFunc (s : list ascii) (f : Z -> bool) : list ascii :=
  TrimRightFunc (TrimLeftFunc s f) f.

(** The second loop of [TrimSpace], on the string [s] already cut at
    [start]: [for ; stop > start; stop--], looking at [s[stop-1]]. *)
Fixpoint trimSpaceRight (s : list ascii) (stop : nat) : list ascii :=
  match stop with
  | O => []
  | S stop' =>
    match s !! stop' with
    | Some c =>
      if RuneSelf <=? val c then
        TrimRightFunc (take stop s) unicode.IsSpace
      else if asciiSpace (val c) then trimSpaceRight s stop'
      else take stop s
    | None => take stop s
    end
  end.

(** [TrimSpace] on bytes.  The first loop walks over leading ASCII
    space; at the first byte that is not ASCII it hands the rest to
    [TrimFunc]. *)
Fixpoint TrimSpace_bytes (s : list ascii) : list ascii :=
  match s with
  | [] => []
  | c :: t =>
    if RuneSelf <=? val c then TrimFunc s unicode.IsSpace
    else if asciiSpace (val c) then TrimSpace_bytes t
    else trimSpaceRight s (length s)
  end.

Definition TrimSpace (s : string) : string :=
  string_of_list_ascii (TrimSpace_bytes (list_ascii_of_string s)).

(** [Map mapping s]: every rune of [s] (an invalid byte reads as
    [RuneError]) is replaced by the encoding of its image; a negative
    image drops the rune. *)
Fixpoint Map_at (mapping : Z -> Z) (skip : nat) (s : list ascii) : list ascii :=
  match s with
  | [] => []
  | _ :: t =>
    match skip with
    | S k => Map_at mapping k t
    | O =>
      let '(c, w) := DecodeRuneInString s in
      let r := mapping c in
      (if 0 <=? r then EncodeRune r else []) ++ Map_at mapping (Z.to_nat w - 1) t
    end
  end.

Definition Map (mapping : Z -> Z) (s : list ascii) : list ascii :=
  Map_at mapping 0 s.

Definition isASCII (s : list ascii) : bool :=
  forallb (fun c => val c <? RuneSelf) s.

Definition lowerByte (c : ascii) : ascii :=
  if (65 <=? val c) && (val c <=? 90) then byte (val c + (97 - 65)) else c.

Definition ToLower_bytes `{unicode.CaseRanges} (s : list ascii) : list ascii :=
  if isASCII s then map lowerByte s else Map unicode.ToLower s.

Definition ToLower `{unicode.CaseRanges} (s : string) : string :=
  string_of_list_ascii (ToLower_bytes (list_ascii_of_string s)).

End gostrings.

(** ** Package [regexp] *)

Module regexp.

(** Parsed expressions, with the operators of [regexp/syntax] that the
    two expressions of this repository need.  A character class is a
    predicate on runes. *)
Inductive Regexp : Type :=
| NoMatch
| EmptyMatch
| CharClass (cls : Z -> bool)
| Concat (r1 r2 : Regexp)
| Alternate (r1 r2 : Regexp)
| Star (r : Regexp).

Definition Literal (c : ascii) : Regexp := CharClass (Z.eqb (utf8.val c)).
Definition Plus (r : Regexp) : Regexp := Concat r (Star r).
Definition Quest (r : Regexp) : Regexp := Alternate r EmptyMatch.

(** [x{n}] is [n] copies of [x]; [x{0,m}] is [(x(x(x)?)?)?]. *)
Fixpoint copies (n : nat) (r : Regexp) : Regexp :=
  match n with
  | O => EmptyMatch
  | S n' => Concat r (copies n' r)
  end.

Fixpoint upto (n : nat) (r : Regexp) : Regexp :=
  match n with
  | O => EmptyMatch
  | S n' => Quest (Concat r (upto n' r))
  end.

(** [x{min,max}], and [x{min,}] when [max] is [None]. *)
Definition Repeat (min : nat) (max : option nat) (r : Regexp) : Regexp :=
  Concat (copies min r)
         (match max with
          | Some m => upto (m - min) r
          | None => Star r
          end).

(** Classes are unions of rune ranges and single runes. *)
Definition range (lo hi : ascii) (r : Z) : bool :=
  (utf8.val lo <=? r) && (r <=? utf8.val hi).
Definition one (c : ascii) (r : Z) : bool := r =? utf8.val c.

(** Matching by derivatives. *)
Fixpoint nullable (re : Regexp) : bool :=
  match re with
  | NoMatch => false
  | EmptyMatch => true
  | CharClass _ => false
  | Concat r1 r2 => nullable r1 && nullable r2
  | Alternate r1 r2 => nullable r1 || nullable r2
  | Star _ => true
  end.

Fixpoint deriv (c : Z) (re : Regexp) : Regexp :=
  match re with
  | NoMatch => NoMatch
  | EmptyMatch => NoMatch
  | CharClass cls => if cls c then EmptyMatch else NoMatch
  | Concat r1 r2 =>
    if nullable r1 then Alternate (Concat (deriv c r1) r2) (deriv c r2)
    else Concat (deriv c r1) r2
  | Alternate r1 r2 => Alternate (deriv c r1) (deriv c r2)
  | Star r => Concat (deriv c r) (Star r)
  end.

Fixpoint matchRunes (re : Regexp) (w : list Z) : bool :=
  match w with
  | [] => nullable re
  | c :: w' => matchRunes (deriv c re) w'
  end.

(** The runes of a string, as [for _, r := range s] yields them. *)
Fixpoint runes_at (skip : nat) (s : list ascii) : list Z :=
  match s with
  | [] => []
  | _ :: t =>
    match skip with
    | S k => runes_at k t
    | O =>
      let '(r, w) := utf8.DecodeRuneInString s in
      r :: runes_at (Z.to_nat w - 1) t
    end
  end.

Definition runes (s : string) : list Z := runes_at 0 (list_ascii_of_string s).

(** [re.MatchString(s)] for an expression written between [^] and [$]
    with no flags, as both expressions of this repository are: the
    whole of [s] has to match. *)
Definition MatchString (re : Regexp) (s : string) : bool :=
  matchRunes re (runes s).

(** The language of an expression, as a relation. *)
Inductive Matches : Regexp -> list Z -> Prop :=
| MEmpty : Matches EmptyMatch []
| MClass cls c : cls c = true -> Matches (CharClass cls) [c]
| MConcat r1 r2 w1 w2 :
    Matches r1 w1 -> Matches r2 w2 -> Matches (Concat r1 r2) (w1 ++ w2)
| MAltL r1 r2 w : Matches r1 w -> Matches (Alternate r1 r2) w
| MAltR r1 r2 w : Matches r2 w -> Matches (Alternate r1 r2) w
| MStarNil r : Matches (Star r) []
| MStarApp r w1 w2 :
    Matches r w1 -> Matches (Star r) w2 -> Matches (Star r) (w1 ++ w2).

End regexp.

(** ** Package [domain] *)

Module domain.
Import regexp.

Record User : Type := {
  ID : string;
  Name : string;
  Email : string;
  Age : Z;
  CreatedAt : Z;
  UpdatedAt : Z
}.

Inductive error : Type :=
| ErrInvalidUserName
| ErrInvalidUserEmail
| ErrInvalidUserAge
| ErrNotFound
| ErrAlreadyExists.

(** A Go result [(T, error)]. *)
Inductive result (A : Type) : Type :=
| Ok (a : A)
| Err (e : error).
Arguments Ok {A} a.
Arguments Err {A} e.

Definition letter (r : Z) : bool := range "A" "Z" r || range "a" "z" r.
Definition letterOrSpace (r : Z) : bool := letter r || one " " r.

(** [[a-zA-Z0-9._%+-]] and [[a-zA-Z0-9.-]]. *)
Definition localChar (r : Z) : bool :=
  range "a" "z" r || range "A" "Z" r || range "0" "9" r
  || one "." r || one "_" r || one "%" r || one "+" r || one "-" r.
Definition domainChar (r : Z) : bool :=
  range "a" "z" r || range "A" "Z" r || range "0" "9" r
  || one "." r || one "-" r.

(** [^[a-zA-Z0-9._%+-]+@[a-zA-Z0-9.-]+\.[a-zA-Z]{2,}$] *)
Definition emailRegex : Regexp :=
  Concat (Plus (CharClass localChar))
    (Concat (Literal "@")
      (Concat (Plus (CharClass domainChar))
        (Concat (Literal ".")
          (Repeat 2 None (CharClass (fun r => range "a" "z" r || range "A" "Z" r)))))).

(** [^[A-Za-z][A-Za-z ]{0,48}[A-Za-z]$] *)
Definition nameRegex : Regexp :=
  Concat (CharClass letter)
    (Concat (Repeat 0 (Some 48%nat) (CharClass letterOrSpace))
      (CharClass letter)).

Definition len (s : string) : Z := Z.of_nat (String.length s).

Section Validation.
Context `{unicode.CaseRanges}.

(** [Validate] writes the trimmed name and the normalized e-mail into
    the receiver before it returns: the result is the receiver after
    the call and the error ([None] is [nil]). *)
Definition Validate (u : User) : User * option error :=
  let u := {| ID := ID u; Name := gostrings.TrimSpace (Name u);
              Email := Email u; Age := Age u;
              CreatedAt := CreatedAt u; UpdatedAt := UpdatedAt u |} in
  if (len (Name u) <? 2) || (50 <? len (Name u)) then (u, Some ErrInvalidUserName)
  else if negb (MatchString nameRegex (Name u)) then (u, Some ErrInvalidUserName)
  else
    let u := {| ID := ID u; Name := Name u;
                Email := gostrings.TrimSpace (gostrings.ToLower (Email u));
                Age := Age u;
                CreatedAt := CreatedAt u; UpdatedAt := UpdatedAt u |} in
    if negb (MatchString emailRegex (Email u)) then (u, Some ErrInvalidUserEmail)
    else if (Age u <? 1) || (150 <? Age u) then (u, Some ErrInvalidUserAge)
    else (u, None).

(** [now] is the reading of [time.Now().UTC()]. *)
Definition NewUser (now : Z) (id name email : string) (age : Z) : result User :=
  let user := {| ID := id; Name := name; Email := email; Age := age;
                 CreatedAt := now; UpdatedAt := now |} in
  match Validate user with
  | (_, Some err) => Err err
  | (user, None) => Ok user
  end.
End Validation.

Definition Clone (u : User) : User :=
  {| ID := ID u; Name := Name u; Email := Email u; Age := Age u;
     CreatedAt := CreatedAt u; UpdatedAt := UpdatedAt u |}.

End domain.

(** ** Package [repository] *)

Module repository.
Import domain.

(** [InMemoryUserRepository] without its lock: [users] is the primary
    map from id to record, [emails] the reverse index from e-mail to id. *)
Record InMemoryUserRepository : Type := {
  users : gmap string User;
  emails : gmap string string
}.

Definition NewInMemoryUserRepository : InMemoryUserRepository :=
  {| users := ∅; emails := ∅ |}.

(** What a call does when it runs: it returns a value, returns an error,
    or panics on the nil pointer. *)
Inductive outcome (A : Type) : Type :=
| Returns (a : A)
| Fails (e : error)
| Panics.
Arguments Returns {A} a.
Arguments Fails {A} e.
Arguments Panics {A}.

Definition Create (user : User) (r : InMemoryUserRepository)
  : option error * InMemoryUserRepository :=
  match users r !! ID user with
  | Some _ => (Some ErrAlreadyExists, r)
  | None =>
    match emails r !! Email user with
    | Some _ => (Some ErrAlreadyExists, r)
    | None =>
      (None, {| users := <[ID user := Clone user]> (users r);
                emails := <[Email user := ID user]> (emails r) |})
    end
  end.

Definition GetByID (id : string) (r : InMemoryUserRepository) : result User :=
  match users r !! id with
  | None => Err ErrNotFound
  | Some user => Ok (Clone user)
  end.

(** [user := r.users[userID]] is nil when [userID] is not a key, and
    [user.Clone()] then reads through nil. *)
Definition GetByEmail (email : string) (r : InMemoryUserRepository) : outcome User :=
  match emails r !! email with
  | None => Fails ErrNotFound
  | Some userID =>
    match users r !! userID with
    | None => Panics
    | Some user => Returns (Clone user)
    end
  end.

(** Go leaves the order of a [range] over a map open; the model lists
    the records in the order of [map_to_list]. *)
Definition GetAll (r : InMemoryUserRepository) : result (list User) :=
  Ok ((fun kv => Clone (snd kv)) <$> map_to_list (users r)).

Definition Update (user : User) (r : InMemoryUserRepository)
  : option error * InMemoryUserRepository :=
  match users r !! ID user with
  | None => (Some ErrNotFound, r)
  | Some oldUser =>
    (* the index after the [if oldUser.Email != user.Email] block, or
       [None] when the block returns [ErrAlreadyExists] *)
    let index :=
      if negb (String.eqb (Email oldUser) (Email user)) then
        match emails r !! Email user with
        | Some existingUserID =>
          if negb (String.eqb existingUserID (ID user)) then None
          else Some (<[Email user := ID user]> (delete (Email oldUser) (emails r)))
        | None =>
          Some (<[Email user := ID user]> (delete (Email oldUser) (emails r)))
        end
      else Some (emails r) in
    match index with
    | None => (Some ErrAlreadyExists, r)
    | Some emails' =>
      (None, {| users := <[ID user := Clone user]> (users r);
                emails := emails' |})
    end
  end.

Definition Delete (id : string) (r : InMemoryUserRepository)
  : option error * InMemoryUserRepository :=
  match users r !! id with
  | None => (Some ErrNotFound, r)
  | Some user =>
    (None, {| users := delete id (users r);
              emails := delete (Email user) (emails r) |})
  end.

Definition Count (r : InMemoryUserRepository) : Z :=
  Z.of_nat (size (users r)).

(** The calls a client of the repository can make, and the store each
    one leaves behind. *)
Inductive op : Type :=
| OpCreate (user : User)
| OpGetByID (id : string)
| OpGetByEmail (email : string)
| OpGetAll
| OpUpdate (user : User)
| OpDelete (id : string)
| OpCount.

Definition exec (o : op) (r : InMemoryUserRepository) : InMemoryUserRepository :=
  match o with
  | OpCreate user => snd (Create user r)
  | OpUpdate user => snd (Update user r)
  | OpDelete id => snd (Delete id r)
  | OpGetByID _ | OpGetByEmail _ | OpGetAll | OpCount => r
  end.

(** The stores that a sequence of calls builds from the empty one. *)
Inductive reachable : InMemoryUserRepository -> Prop :=
| reachable_new : reachable NewInMemoryUserRepository
| reachable_exec o r : reachable r -> reachable (exec o r).

(** The two maps agree: every record is indexed under its e-mail by its
    key, and every index entry leads to a record with that e-mail. *)
Definition consistent (r : InMemoryUserRepository) : Prop :=
  (∀ id u, users r !! id = Some u → emails r !! Email u = Some id) ∧
  (∀ e id, emails r !! e = Some id →
           ∃ u, users r !! id = Some u ∧ Email u = e).

(** No two live records have the same e-mail. *)
Definition unique_emails (r : InMemoryUserRepository) : Prop :=
  ∀ id1 id2 u1 u2,
    users r !! id1 = Some u1 → users r !! id2 = Some u2 →
    Email u1 = Email u2 → id1 = id2.

End repository.

(** ** Package [service] *)

Module service.
Import domain repository.

Section UserService.
Context `{unicode.CaseRanges}.

(** [id] is the string of [uuid.New()] and [now] the reading of the
    clock taken inside the call. *)
Definition CreateUser (id : string) (now : Z) (name email : string) (age : Z)
           (r : InMemoryUserRepository)
  : result User * InMemoryUserRepository :=
  match NewUser now id name email age with
  | Err err => (Err err, r)
  | Ok user =>
    match Create user r with
    | (Some err, r') => (Err err, r')
    | (None, r') => (Ok user, r')
    end
  end.

Definition GetUser (id : string) (r : InMemoryUserRepository) : result User :=
  GetByID id r.

Definition GetUserByEmail (email : string) (r : InMemoryUserRepository)
  : outcome User :=
  GetByEmail email r.

Definition GetAllUsers (r : InMemoryUserRepository) : result (list User) :=
  GetAll r.

Definition UpdateUser (now : Z) (id name email : string) (age : Z)
           (r : InMemoryUserRepository)
  : result User * InMemoryUserRepository :=
  match GetByID id r with
  | Err err => (Err err, r)
  | Ok existingUser =>
    let updatedUser := {| ID := id; Name := name; Email := email; Age := age;
                          CreatedAt := CreatedAt existingUser;
                          UpdatedAt := now |} in
    match Validate updatedUser with
    | (_, Some err) => (Err err, r)
    | (updatedUser, None) =>
      match Update updatedUser r with
      | (Some err, r') => (Err err, r')
      | (None, r') => (Ok updatedUser, r')
      end
    end
  end.

Definition DeleteUser (id : string) (r : InMemoryUserRepository)
  : option error * InMemoryUserRepository :=
  Delete id r.

Definition CountUsers (r : InMemoryUserRepository) : Z := Count r.

(** The calls a client of the service can make; a creation carries
    the identifier drawn for it. *)
Inductive call : Type :=
| CallCreateUser (id : string) (name email : string) (age : Z)
| CallGetUser (id : string)
| CallGetUserByEmail (email : string)
| CallGetAllUsers
| CallUpdateUser (id name email : string) (age : Z)
| CallDeleteUser (id : string)
| CallCountUsers.

(** The store a call leaves behind, [now] being the reading of the
    clock at the call. *)
Definition serve (now : Z) (c : call) (r : InMemoryUserRepository)
  : InMemoryUserRepository :=
  match c with
  | CallCreateUser id name email age => snd (CreateUser id now name email age r)
  | CallUpdateUser id name email age => snd (UpdateUser now id name email age r)
  | CallDeleteUser id => snd (DeleteUser id r)
  | CallGetUser _ | CallGetUserByEmail _ | CallGetAllUsers | CallCountUsers => r
  end.

(** [served t r]: the store [r] is built from the empty one by calls
    to the service whose clock readings never decrease, the last of
    them being at most [t]. *)
Inductive served : Z -> InMemoryUserRepository -> Prop :=
| served_new t : served t NewInMemoryUserRepository
| served_call t now c r : served t r -> t <= now -> served now (serve now c r).
End UserService.


End service.

Import domain repository service.

(** A case table that leaves every rune above ASCII as it is; the
    examples below evaluate the code on ASCII inputs, where no table is
    consulted. *)
Definition NoCaseRanges : unicode.CaseRanges := {| unicode.To_LowerCase r := r |}.

(** ** The shape of a name *)

(** The letters of both expressions are the ASCII letters. *)
Definition ascii_letter (c : ascii) : Prop :=
  65 <= utf8.val c <= 90 ∨ 97 <= utf8.val c <= 122.

Definition letter_or_space (c : ascii) : Prop :=
  ascii_letter c ∨ c = " "%char.

(** Between 2 and 50 bytes, a letter first and last, letters and spaces
    in between. *)
Definition name_shape (t : string) : Prop :=
  2 <= domain.len t <= 50 ∧
  ∃ a mid z, list_ascii_of_string t = a :: mid ++ [z] ∧
             ascii_letter a ∧ ascii_letter z ∧ Forall letter_or_space mid.

(** No space is followed by a space. *)
Definition single_spaces (t : string) : Prop :=
  ∀ before after,
    list_ascii_of_string t ≠ before ++ " "%char :: " "%char :: after.

Definition name_shape_single_spaces (t : string) : Prop :=
  name_shape t ∧ single_spaces t.

(** ** Sample data

    The two users of the scenario of the specification, as the validator
    leaves them, the store after the first one is created through the
    service at time 10, and a user whose name has two spaces in a row. *)

Definition john : User :=
  {| ID := "id-1"; Name := "John Doe"; Email := "john@example.com"; Age := 30;
     CreatedAt := 10; UpdatedAt := 10 |}.

Definition jane : User :=
  {| ID := "id-2"; Name := "Jane"; Email := "john@example.com"; Age := 25;
     CreatedAt := 11; UpdatedAt := 11 |}.

Definition store_with_john : InMemoryUserRepository :=
  @serve NoCaseRanges 10
    (CallCreateUser "id-1" "John Doe" "John@Example.com" 30)
    NewInMemoryUserRepository.

Definition spaced : User :=
  {| ID := "id-3"; Name := "Jo  hn"; Email := "john@example.com"; Age := 30;
     CreatedAt := 10; UpdatedAt := 10 |}.

(** ** Further statements *)

(** Every record sits under its own id. *)
Definition keyed (r : InMemoryUserRepository) : Prop :=
  ∀ id u, users r !! id = Some u → ID u = id.

(** [Delete] of each id of a list in turn, whether it succeeds or not. *)
Definition deleteEach (ids : list string) (r : InMemoryUserRepository)
  : InMemoryUserRepository :=
  foldl (λ r id, snd (Delete id r)) r ids.

(** ** The shape of an e-mail *)

Definition ascii_digit (c : ascii) : Prop := 48 <= utf8.val c <= 57.

(** The characters of the local part, [[a-zA-Z0-9._%+-]], and of the
    domain, [[a-zA-Z0-9.-]]. *)
Definition local_char (c : ascii) : Prop :=
  ascii_letter c ∨ ascii_digit c ∨
  c = "."%char ∨ c = "_"%char ∨ c = "%"%char ∨ c = "+"%char ∨ c = "-"%char.

Definition domain_char (c : ascii) : Prop :=
  ascii_letter c ∨ ascii_digit c ∨ c = "."%char ∨ c = "-"%char.

(** A non-empty local part, an at sign, a non-empty domain, a dot and a
    last label of two letters or more. *)
Definition email_shape (t : string) : Prop :=
  ∃ loc dom tld,
    list_ascii_of_string t = loc ++ "@"%char :: dom ++ "."%char :: tld ∧
    loc ≠ [] ∧ Forall local_char loc ∧
    dom ≠ [] ∧ Forall domain_char dom ∧
    (2 ≤ length tld)%nat ∧ Forall ascii_letter tld.

(** The class of the last label of [emailRegex], [[a-zA-Z]]. *)
Definition tldChar (r : Z) : bool := regexp.range "a" "z" r || regexp.range "A" "Z" r.

(** What validation asks of a record. *)
Definition valid_record (u : User) : Prop :=
  name_shape (Name u) ∧ email_shape (Email u) ∧ 1 <= Age u <= 150.

(** What the service has stored by time [t]: valid records, each under
    its own id, created no later than last written, and that by [t]. *)
Definition valid_store (t : Z) (r : InMemoryUserRepository) : Prop :=
  ∀ id u, users r !! id = Some u →
          ID u = id ∧ valid_record u ∧ CreatedAt u <= UpdatedAt u <= t.

(** A byte that is not an ASCII capital. *)
Definition not_capital (c : ascii) : Prop := ¬ 65 <= utf8.val c <= 90.

(** ** Package [generators] (test data) *)

Module generators.
Local Open Scope string_scope.

(** [fmt.Sprintf] with the verb [%d]: the decimal digits of an integer,
    after a minus sign when it is negative. *)
Definition fmt_d (n : Z) : string := NilZero.string_of_int (Z.to_int n).

(** A [rapid.SampledFrom] generator is the list it draws from. *)
Definition ValidName : list string :=
  [ "AB"; "CD"; "Jo"; "Al"; "Bo"; "Ed"; "Li"; "Ty"; "Ma"; "Lu";
    "John"; "Jane"; "Alice"; "Bob"; "Carlos"; "Maria";
    "Michael"; "Jennifer"; "Daniel"; "Jessica"; "David"; "Sarah";
    "Alexander"; "Elizabeth"; "Christopher"; "Amanda";
    "John Doe"; "Jane Smith"; "Alice Johnson"; "Bob Wilson";
    "Mary Jane"; "Anna Maria"; "John Paul"; "Sarah Connor";
    "James Bond"; "Peter Parker"; "Bruce Wayne"; "Clark Kent";
    "Christopher Alexander Montgomery Wellington" ].

Definition InvalidName : list string :=
  [ "";
    "   ";
    "     ";
    "A";
    "Z";
    "ABCDEFGHIJKLMNOPQRSTUVWXYZABCDEFGHIJKLMNOPQRSTUVWXYZ";
    "Christopher Alexander Montgomery Wellington Johnson Smith";
    "John123";
    "Jane456";
    "John@Doe";
    "Jane#Smith";
    "John_Doe";
    "Jane-Smith";
    "123John";
    "@Alice" ].

Definition prefixes : list string :=
  [ "user"; "test"; "john"; "jane"; "alice"; "bob";
    "admin"; "contact"; "info"; "demo"; "sample" ].

Definition domains : list string :=
  [ "example.com"; "test.org"; "demo.net"; "sample.edu";
    "service.io"; "company.co" ].

(** [ValidEmail]: [fmt.Sprintf("%s%d%d@%s", prefix, timestamp,
    randomSuffix, domain)], for a drawn prefix and domain, the reading of
    [time.Now().UnixNano()] and the number [rand.Intn(1000000)]. *)
Definition ValidEmail (prefix : string) (timestamp randomSuffix : Z)
           (domain : string) : string :=
  prefix ++ fmt_d timestamp ++ fmt_d randomSuffix ++ "@" ++ domain.

Definition InvalidEmail : list string :=
  [ "invalidemail";
    "userexample.com";
    "user@";
    "test@";
    "@domain.com";
    "@example.org";
    "user@@domain.com";
    "test@@example.org";
    "user@domain";
    "test@example";
    "";
    "user @domain.com";
    "user@ domain.com";
    "user@domain .com";
    "user@.com";
    "test@.org";
    "user@domain.";
    "test@example.";
    "user name@domain.com";
    "user@domain com" ].

(** [ValidAge] is [rapid.IntRange(1, 150)]; [InvalidAge] is one of
    [rapid.Just(0)], [rapid.IntRange(-100, -1)], [rapid.IntRange(151, 500)]. *)
Definition ValidAge (age : Z) : Prop := 1 <= age <= 150.

Definition InvalidAge (age : Z) : Prop :=
  age = 0 ∨ -100 <= age <= -1 ∨ 151 <= age <= 500.

Record ValidUserData : Type := {
  vName : string; vEmail : string; vAge : Z
}.

Record InvalidUserData : Type := {
  iName : string; iEmail : string; iAge : Z; iCaseType : Z
}.

(** The values [ValidUserStruct] can draw. *)
Definition ValidUserStruct (d : ValidUserData) : Prop :=
  vName d ∈ ValidName ∧
  (∃ prefix timestamp randomSuffix domain,
     prefix ∈ prefixes ∧ domain ∈ domains ∧
     vEmail d = ValidEmail prefix timestamp randomSuffix domain) ∧
  ValidAge (vAge d).

Definition drawsValidEmail (e : string) : Prop :=
  ∃ prefix timestamp randomSuffix domain,
    prefix ∈ prefixes ∧ domain ∈ domains ∧
    e = ValidEmail prefix timestamp randomSuffix domain.

(** The values [InvalidUserStruct] can draw: [caseType] is 0, 1 or 2, and
    the field it names is the invalid one. *)
Definition InvalidUserStruct (d : InvalidUserData) : Prop :=
  (iCaseType d = 0 ∧ iName d ∈ InvalidName ∧
   drawsValidEmail (iEmail d) ∧ ValidAge (iAge d)) ∨
  (iCaseType d = 1 ∧ iName d ∈ ValidName ∧
   iEmail d ∈ InvalidEmail ∧ ValidAge (iAge d)) ∨
  (iCaseType d = 2 ∧ iName d ∈ ValidName ∧
   drawsValidEmail (iEmail d) ∧ InvalidAge (iAge d)).

End generators.

(** ASCII and not a capital: a byte that lower-casing leaves alone. *)
Definition plain_byte (c : ascii) : bool :=
  (utf8.val c <? utf8.RuneSelf) && negb ((65 <=? utf8.val c) && (utf8.val c <=? 90)).

(** The two name checks of [Validate], on a name already trimmed. *)
Definition name_ok (t : string) : bool :=
  negb ((len t <? 2) || (50 <? len t)) && regexp.MatchString nameRegex t.


(** Samples of what the generators draw. *)
Definition drawn_valid : generators.ValidUserData :=
  {| generators.vName := "John Doe";
     generators.vEmail :=
       generators.ValidEmail "user" 1730000000000000000 4711 "test.org";
     generators.vAge := 30 |}.

Definition drawn_invalid : generators.InvalidUserData :=
  {| generators.iName := "John123";
     generators.iEmail :=
       generators.ValidEmail "user" 1730000000000000000 4711 "test.org";
     generators.iAge := 30;
     generators.iCaseType := 0 |}.

(** [john] one year older, under the same e-mail. *)
Definition john_older : User :=
  {| ID := "id-1"; Name := "John Doe"; Email := "john@example.com"; Age := 31;
     CreatedAt := 10; UpdatedAt := 12 |}.

(** [john] under a new e-mail. *)
Definition john_moved : User :=
  {| ID := "id-1"; Name := "John Doe"; Email := "john.doe@example.com"; Age := 30;
     CreatedAt := 10; UpdatedAt := 12 |}.

(** * Properties *)

(** ** The code on concrete inputs *)

Section Scenario.
Local Open Scope string_scope.
Local Existing Instance NoCaseRanges.

Example TrimSpace_ascii : gostrings.TrimSpace "  John Doe  " = "John Doe".
Proof. reflexivity. Qed.

(** A no-break space (C2 A0) in front, a tab, a line feed and an
    ideographic space (E3 80 80) behind. *)
Example TrimSpace_unicode :
  gostrings.TrimSpace
    (String (utf8.byte 0xC2) (String (utf8.byte 0xA0)
       ("Bob" ++ String "009" (String "010"
          (String (utf8.byte 0xE3) (String (utf8.byte 0x80)
             (String (utf8.byte 0x80) ""))))))) = "Bob".
Proof. reflexivity. Qed.

Example ToLower_ascii : gostrings.ToLower "John@Example.COM" = "john@example.com".
Proof. reflexivity. Qed.

(** The scenario: user A is created and stored under the normalized
    e-mail; user B with that e-mail is refused; an update of A with age -1
    is refused and A still has age 30. *)
Example scenario_create_A :
  CreateUser "id-1" 10 "John Doe" "John@Example.com" 30 NewInMemoryUserRepository
  = (Ok john, store_with_john).
Proof. reflexivity. Qed.

Example scenario_create_B :
  CreateUser "id-2" 11 "Jane" "john@example.com" 25 store_with_john
  = (Err ErrAlreadyExists, store_with_john).
Proof. reflexivity. Qed.

Example scenario_update_A :
  UpdateUser 12 "id-1" "John Doe" "john@example.com" (-1) store_with_john
  = (Err ErrInvalidUserAge, store_with_john) ∧
  Age <$> (users store_with_john !! "id-1") = Some 30.
Proof. split; reflexivity. Qed.

(** The bounds of names (1, 2, 50 and 51 letters) and of ages. *)
Example boundary_names :
  let check name := snd (Validate {| ID := "id"; Name := name;
                                     Email := "a@example.com"; Age := 30;
                                     CreatedAt := 0; UpdatedAt := 0 |}) in
  check "A" = Some ErrInvalidUserName ∧
  check "AB" = None ∧
  check "ABCDEFGHIJKLMNOPQRSTUVWXYZABCDEFGHIJKLMNOPQRSTUVWX" = None ∧
  check "ABCDEFGHIJKLMNOPQRSTUVWXYZABCDEFGHIJKLMNOPQRSTUVWXY" = Some ErrInvalidUserName.
Proof. repeat split; reflexivity. Qed.

Example boundary_ages :
  let check age := snd (Validate {| ID := "id"; Name := "AB";
                                    Email := "a@example.com"; Age := age;
                                    CreatedAt := 0; UpdatedAt := 0 |}) in
  check 0 = Some ErrInvalidUserAge ∧ check 1 = None ∧
  check 150 = None ∧ check 151 = Some ErrInvalidUserAge.
Proof. repeat split; reflexivity. Qed.
End Scenario.

(** ** The repository, call by call *)

Section RepositoryCalls.
Implicit Types (r : InMemoryUserRepository) (u x y : User) (id e : string).

Lemma Clone_same u : Clone u = u.
Proof. by destruct u. Qed.

(** [Create] succeeds exactly when both keys are free, and then writes
    both maps. *)
Lemma Create_ok x r r' :
  Create x r = (None, r') ↔
  users r !! ID x = None ∧ emails r !! Email x = None ∧
  r' = {| users := <[ID x := x]> (users r);
          emails := <[Email x := ID x]> (emails r) |}.
Proof.
  unfold Create. rewrite Clone_same.
  destruct (users r !! ID x), (emails r !! Email x); split;
    try (intros [= <-]); try (intros (? & ? & ->)); auto; discriminate.
Qed.

Lemma Create_error x r :
  Create x r = (Some ErrAlreadyExists, r) ↔
  is_Some (users r !! ID x) ∨ is_Some (emails r !! Email x).
Proof.
  unfold Create.
  destruct (users r !! ID x) eqn:Hid, (emails r !! Email x) eqn:He; split;
    intros Hx; eauto; try discriminate.
  destruct Hx as [[? [=]] | [? [=]]].
Qed.

Lemma Create_cases x r :
  Create x r = (Some ErrAlreadyExists, r) ∨ ∃ r', Create x r = (None, r').
Proof.
  unfold Create.
  destruct (users r !! ID x), (emails r !! Email x); eauto.
Qed.

Lemma Delete_ok id r r' :
  Delete id r = (None, r') ↔
  ∃ u, users r !! id = Some u ∧
       r' = {| users := delete id (users r);
               emails := delete (Email u) (emails r) |}.
Proof.
  unfold Delete. destruct (users r !! id) as [u|]; split.
  - intros [= <-]. eauto.
  - by intros (? & [= <-] & ->).
  - discriminate.
  - by intros (? & [=] & _).
Qed.

Lemma Delete_cases id r :
  Delete id r = (Some ErrNotFound, r) ∨ ∃ r', Delete id r = (None, r').
Proof. unfold Delete. destruct (users r !! id); eauto. Qed.

(** The three ways [Update] can end on a record that exists. *)
Lemma Update_same_email u old r :
  users r !! ID u = Some old → Email old = Email u →
  Update u r = (None, {| users := <[ID u := u]> (users r); emails := emails r |}).
Proof.
  intros Hold Heq. unfold Update. rewrite Hold, Clone_same.
  by rewrite (proj2 (String.eqb_eq _ _) Heq).
Qed.

Lemma Update_taken u old other r :
  users r !! ID u = Some old → Email old ≠ Email u →
  emails r !! Email u = Some other → other ≠ ID u →
  Update u r = (Some ErrAlreadyExists, r).
Proof.
  intros Hold Hne Hidx Hother. unfold Update. rewrite Hold, Hidx.
  rewrite (proj2 (String.eqb_neq _ _) Hne).
  by rewrite (proj2 (String.eqb_neq _ _) Hother).
Qed.

Lemma Update_moved u old r :
  users r !! ID u = Some old → Email old ≠ Email u →
  (∀ other, emails r !! Email u = Some other → other = ID u) →
  Update u r =
  (None, {| users := <[ID u := u]> (users r);
            emails := <[Email u := ID u]> (delete (Email old) (emails r)) |}).
Proof.
  intros Hold Hne Hfree. unfold Update. rewrite Hold, Clone_same.
  rewrite (proj2 (String.eqb_neq _ _) Hne). simpl.
  destruct (emails r !! Email u) as [other|] eqn:Hidx; [|done].
  rewrite (Hfree other eq_refl).
  by rewrite (proj2 (String.eqb_eq _ _) eq_refl).
Qed.

Lemma Update_absent u r :
  users r !! ID u = None → Update u r = (Some ErrNotFound, r).
Proof. intros Hno. unfold Update. by rewrite Hno. Qed.

(** Every way [Update] can end. *)
Lemma Update_cases u r :
  (users r !! ID u = None ∧ Update u r = (Some ErrNotFound, r)) ∨
  (∃ old other, users r !! ID u = Some old ∧ Email old ≠ Email u ∧
                emails r !! Email u = Some other ∧ other ≠ ID u ∧
                Update u r = (Some ErrAlreadyExists, r)) ∨
  (∃ old, users r !! ID u = Some old ∧ Email old = Email u ∧
          Update u r = (None, {| users := <[ID u := u]> (users r);
                                 emails := emails r |})) ∨
  (∃ old, users r !! ID u = Some old ∧ Email old ≠ Email u ∧
          (∀ other, emails r !! Email u = Some other → other = ID u) ∧
          Update u r =
          (None, {| users := <[ID u := u]> (users r);
                    emails := <[Email u := ID u]>
                                (delete (Email old) (emails r)) |})).
Proof.
  destruct (users r !! ID u) as [old|] eqn:Hold.
  - right. destruct (String.eqb_spec (Email old) (Email u)) as [Heq|Hne].
    + right. left. exists old. eauto using Update_same_email.
    + destruct (emails r !! Email u) as [other|] eqn:Hidx.
      * destruct (String.eqb_spec other (ID u)) as [->|Hother].
        -- right. right. exists old. split; [done|]. split; [done|].
           split; [congruence|]. apply Update_moved; congruence.
        -- left. exists old, other. eauto 8 using Update_taken.
      * right. right. exists old. split; [done|]. split; [done|].
        split; [congruence|]. apply Update_moved; congruence.
  - left. eauto using Update_absent.
Qed.
End RepositoryCalls.

(** ** The two maps stay consistent *)

Section Consistency.
Implicit Types (r : InMemoryUserRepository) (u x y : User) (id e : string).

Lemma consistent_new : consistent NewInMemoryUserRepository.
Proof. split; simpl; intros ? ?; by rewrite lookup_empty. Qed.

Lemma consistent_unique r : consistent r → unique_emails r.
Proof.
  intros [Hfwd _] id1 id2 u1 u2 H1 H2 Heq.
  apply Hfwd in H1. apply Hfwd in H2. congruence.
Qed.

Lemma consistent_Create x r : consistent r → consistent (snd (Create x r)).
Proof.
  intros Hc. destruct (Create_cases x r) as [-> | [r' Hok]]; [done|].
  rewrite Hok. apply Create_ok in Hok as (Hid & He & ->).
  destruct Hc as [Hfwd Hbwd]. split; simpl.
  - intros id u. rewrite lookup_insert. case_decide as Hk.
    + intros [= <-]. subst id. by rewrite lookup_insert_eq.
    + intros Hu. rewrite lookup_insert_ne; [by apply Hfwd|].
      intros Heq. apply Hfwd in Hu. congruence.
  - intros e id. rewrite lookup_insert. case_decide as Hk.
    + intros [= <-]. subst e. exists x. by rewrite lookup_insert_eq.
    + intros Hidx. destruct (Hbwd _ _ Hidx) as (u & Hu & Hue).
      exists u. split; [|done]. rewrite lookup_insert_ne; [done|].
      congruence.
Qed.

Lemma consistent_Delete id r : consistent r → consistent (snd (Delete id r)).
Proof.
  intros Hc. destruct (Delete_cases id r) as [-> | [r' Hok]]; [done|].
  rewrite Hok. apply Delete_ok in Hok as (old & Hold & ->).
  destruct Hc as [Hfwd Hbwd]. split; simpl.
  - intros id' u. rewrite lookup_delete. case_decide as Hk; [done|].
    intros Hu. rewrite lookup_delete_ne; [by apply Hfwd|].
    intros Heq. apply Hfwd in Hu. apply Hfwd in Hold. congruence.
  - intros e id'. rewrite lookup_delete. case_decide as Hk; [done|].
    intros Hidx. destruct (Hbwd _ _ Hidx) as (u & Hu & Hue).
    exists u. split; [|done]. rewrite lookup_delete_ne; [done|].
    congruence.
Qed.

Lemma consistent_Update x r : consistent r → consistent (snd (Update x r)).
Proof.
  intros Hc.
  destruct (Update_cases x r)
    as [[_ ->] | [(old & other & _ & _ & _ & _ & ->)
       | [(old & Hold & Heq & ->) | (old & Hold & Hne & Hfree & ->)]]];
    [done | done | |]; destruct Hc as [Hfwd Hbwd]; split; simpl.
  - intros id u. rewrite lookup_insert. case_decide as Hk.
    + intros [= <-]. subst id. rewrite <- Heq. by apply Hfwd.
    + apply Hfwd.
  - intros e id Hidx. destruct (Hbwd _ _ Hidx) as (u & Hu & Hue).
    rewrite lookup_insert. case_decide as Hk.
    + exists x. split; [done|]. congruence.
    + eauto.
  - intros id u. rewrite lookup_insert. case_decide as Hk.
    + intros [= <-]. subst id. by rewrite lookup_insert_eq.
    + intros Hu. pose proof (Hfwd _ _ Hu) as Hidx.
      rewrite lookup_insert_ne.
      * rewrite lookup_delete_ne; [done|].
        intros Heq. apply Hfwd in Hold. congruence.
      * intros Heq. rewrite <- Heq in Hidx. apply Hfree in Hidx. congruence.
  - intros e id. rewrite lookup_insert. case_decide as Hk.
    + intros [= <-]. subst e. exists x. by rewrite lookup_insert_eq.
    + rewrite lookup_delete. case_decide as Hk'; [done|].
      intros Hidx. destruct (Hbwd _ _ Hidx) as (u & Hu & Hue).
      exists u. split; [|done]. rewrite lookup_insert_ne; [done|].
      congruence.
Qed.

Lemma consistent_exec o r : consistent r → consistent (exec o r).
Proof.
  destruct o; simpl;
    auto using consistent_Create, consistent_Update, consistent_Delete.
Qed.

Lemma reachable_is_consistent r : reachable r → consistent r.
Proof.
  induction 1; auto using consistent_new, consistent_exec.
Qed.
End Consistency.

(** ** Validation and the service, call by call *)

Section ServiceCalls.
Context `{unicode.CaseRanges}.
Implicit Types (r : InMemoryUserRepository) (u : User) (id : string).

(** A record that passes [Validate] comes back with its name trimmed and
    its e-mail normalized; the other four fields are as they were. *)
Lemma Validate_ok u u' :
  Validate u = (u', None) →
  u' = {| ID := ID u; Name := gostrings.TrimSpace (Name u);
          Email := gostrings.TrimSpace (gostrings.ToLower (Email u));
          Age := Age u; CreatedAt := CreatedAt u; UpdatedAt := UpdatedAt u |}
  ∧ 1 <= Age u <= 150.
Proof.
  unfold Validate. cbn [ID Name Email Age CreatedAt UpdatedAt].
  repeat case_match; try discriminate.
  intros [= <-]. split; [done|]. lia.
Qed.

Lemma NewUser_ok now id name email age u :
  NewUser now id name email age = Ok u →
  u = {| ID := id; Name := gostrings.TrimSpace name;
         Email := gostrings.TrimSpace (gostrings.ToLower email);
         Age := age; CreatedAt := now; UpdatedAt := now |}.
Proof.
  unfold NewUser.
  destruct (Validate _) as [u' [err|]] eqn:Hv; [discriminate|].
  intros [= <-]. by apply Validate_ok in Hv as [-> _].
Qed.

Lemma CreateUser_ok id now name email age r u r' :
  CreateUser id now name email age r = (Ok u, r') ↔
  NewUser now id name email age = Ok u ∧ Create u r = (None, r').
Proof.
  unfold CreateUser. destruct (NewUser _ _ _ _ _) as [user|err].
  - destruct (Create user r) as [[err|] r1] eqn:Hc; split.
    + discriminate.
    + intros [[= <-] Hc']. congruence.
    + by intros [= <- <-].
    + intros [[= <-] Hc']. congruence.
  - split; [discriminate | by intros [[=] _]].
Qed.

Lemma CreateUser_error id now name email age r err r' :
  CreateUser id now name email age r = (Err err, r') → r' = r.
Proof.
  unfold CreateUser. destruct (NewUser _ _ _ _ _) as [user|err'].
  - destruct (Create_cases user r) as [-> | [r1 ->]]; [|discriminate].
    by intros [= _ <-].
  - by intros [= _ <-].
Qed.

Lemma UpdateUser_ok now id name email age r u r' :
  UpdateUser now id name email age r = (Ok u, r') ↔
  ∃ old, users r !! id = Some old ∧
    Validate {| ID := id; Name := name; Email := email; Age := age;
                CreatedAt := CreatedAt old; UpdatedAt := now |} = (u, None) ∧
    Update u r = (None, r').
Proof.
  unfold UpdateUser, GetByID.
  destruct (users r !! id) as [old|]; [|split; [discriminate | by intros (? & [=] & _)]].
  rewrite Clone_same.
  destruct (Validate _) as [u' [err|]] eqn:Hv.
  - split; [discriminate | intros (? & [= <-] & Hv' & _); congruence].
  - destruct (Update u' r) as [[err|] r1] eqn:Hu; split.
    + discriminate.
    + intros (? & [= <-] & Hv' & ?). congruence.
    + intros [= <- <-]. eauto.
    + intros (? & [= <-] & Hv' & ?). congruence.
Qed.

Lemma UpdateUser_error now id name email age r err r' :
  UpdateUser now id name email age r = (Err err, r') → r' = r.
Proof.
  unfold UpdateUser. destruct (GetByID id r) as [old|]; [|by intros [= _ <-]].
  destruct (Validate _) as [u' [e|]]; [by intros [= _ <-]|].
  destruct (Update_cases u' r)
    as [[_ ->] | [(? & ? & _ & _ & _ & _ & ->)
       | [(? & _ & _ & ->) | (? & _ & _ & _ & ->)]]];
    try discriminate; by intros [= _ <-].
Qed.

(** A successful [Update] stores its argument under its id. *)
Lemma Update_ok_users u r r' :
  Update u r = (None, r') → users r' = <[ID u := u]> (users r).
Proof.
  destruct (Update_cases u r)
    as [[_ ->] | [(? & ? & _ & _ & _ & _ & ->)
       | [(? & _ & _ & ->) | (? & _ & _ & _ & ->)]]];
    try discriminate; by intros [= <-].
Qed.



End ServiceCalls.

(** ** Matching by derivatives decides the language *)

Section Derivatives.
Import regexp.
Implicit Types (re : Regexp) (w : list Z) (c : Z).

Lemma Matches_Empty_inv w : Matches EmptyMatch w → w = [].
Proof. by inversion 1. Qed.

Lemma Matches_Class_inv cls w :
  Matches (CharClass cls) w → ∃ c, w = [c] ∧ cls c = true.
Proof. inversion 1; eauto. Qed.

Lemma Matches_Concat_inv re1 re2 w :
  Matches (Concat re1 re2) w →
  ∃ w1 w2, w = w1 ++ w2 ∧ Matches re1 w1 ∧ Matches re2 w2.
Proof. inversion 1; eauto 6. Qed.

Lemma Matches_Alternate_inv re1 re2 w :
  Matches (Alternate re1 re2) w → Matches re1 w ∨ Matches re2 w.
Proof. inversion 1; eauto. Qed.

Lemma nullable_Matches re : nullable re = true ↔ Matches re [].
Proof.
  induction re as [| |cls|re1 IH1 re2 IH2|re1 IH1 re2 IH2|re IH]; simpl.
  - split; [discriminate | inversion 1].
  - split; [constructor | done].
  - split; [discriminate | inversion 1].
  - rewrite andb_true_iff, IH1, IH2. split.
    + intros [H1 H2]. apply (MConcat _ _ [] [] H1 H2).
    + intros (w1 & w2 & Hw & H1 & H2)%Matches_Concat_inv.
      symmetry in Hw. apply app_eq_nil in Hw as [-> ->]. done.
  - rewrite orb_true_iff, IH1, IH2. split.
    + intros [?|?]; [by apply MAltL | by apply MAltR].
    + apply Matches_Alternate_inv.
  - split; [constructor | done].
Qed.

(** A non-empty word of a star starts with a non-empty word of the body. *)
Lemma Matches_Star_cons re c w :
  Matches (Star re) (c :: w) →
  ∃ w1 w2, w = w1 ++ w2 ∧ Matches re (c :: w1) ∧ Matches (Star re) w2.
Proof.
  intros Hm. remember (Star re) as sre eqn:Hs. remember (c :: w) as cw eqn:Hcw.
  revert w Hcw. induction Hm as [| | | | | |r w1 w2 H1 _ H2 IH2]; try discriminate.
  injection Hs as ->. intros w Hcw. destruct w1 as [|c' w1]; simpl in Hcw.
  - by apply IH2.
  - injection Hcw as -> <-. eauto 6.
Qed.

Lemma deriv_Matches re c w : Matches (deriv c re) w ↔ Matches re (c :: w).
Proof.
  revert w.
  induction re as [| |cls|re1 IH1 re2 IH2|re1 IH1 re2 IH2|re IH]; intros w; simpl.
  - split; inversion 1.
  - split; inversion 1.
  - destruct (cls c) eqn:Hc; split.
    + intros ->%Matches_Empty_inv. by constructor.
    + intros (c' & [= <- ->] & _)%Matches_Class_inv. constructor.
    + inversion 1.
    + intros (c' & [= <- ->] & ?)%Matches_Class_inv. congruence.
  - assert (Hleft : ∀ w, Matches (Concat (deriv c re1) re2) w →
                         Matches (Concat re1 re2) (c :: w)).
    { intros w' (w1 & w2 & -> & H1 & H2)%Matches_Concat_inv.
      apply IH1 in H1. apply (MConcat _ _ (c :: w1) w2 H1 H2). }
    assert (Hback : ∀ w, Matches (Concat re1 re2) (c :: w) →
              Matches (Concat (deriv c re1) re2) w ∨
              (Matches re1 [] ∧ Matches (deriv c re2) w)).
    { intros w' (w1 & w2 & Hw & H1 & H2)%Matches_Concat_inv.
      destruct w1 as [|c' w1]; simpl in Hw.
      - subst w2. right. split; [done | by apply IH2].
      - injection Hw as <- ->. left. constructor; [by apply IH1 | done]. }
    destruct (nullable re1) eqn:Hn; split.
    + intros [Hm|Hm]%Matches_Alternate_inv; [by apply Hleft|].
      apply IH2 in Hm. apply nullable_Matches in Hn.
      apply (MConcat _ _ [] (c :: w) Hn Hm).
    + intros [Hm|[_ Hm]]%Hback; [by apply MAltL | by apply MAltR].
    + apply Hleft.
    + intros [Hm|[Hm _]]%Hback; [done|].
      apply nullable_Matches in Hm. congruence.
  - split.
    + intros [Hm|Hm]%Matches_Alternate_inv;
        [apply MAltL; by apply IH1 | apply MAltR; by apply IH2].
    + intros [Hm|Hm]%Matches_Alternate_inv;
        [apply MAltL; by apply IH1 | apply MAltR; by apply IH2].
  - split.
    + intros (w1 & w2 & -> & H1 & H2)%Matches_Concat_inv.
      apply IH in H1. apply (MStarApp _ (c :: w1) w2 H1 H2).
    + intros (w1 & w2 & -> & H1 & H2)%Matches_Star_cons.
      constructor; [by apply IH | done].
Qed.

Theorem matchRunes_Matches re w : matchRunes re w = true ↔ Matches re w.
Proof.
  revert re. induction w as [|c w IH]; intros re; simpl.
  - apply nullable_Matches.
  - rewrite IH. apply deriv_Matches.
Qed.

(** Up to [n] runes of one class. *)
Lemma Matches_upto_class cls n w :
  Matches (upto n (CharClass cls)) w ↔
  (length w ≤ n)%nat ∧ Forall (λ c, cls c = true) w.
Proof.
  revert w. induction n as [|n IH]; intros w; simpl.
  - split.
    + intros ->%Matches_Empty_inv. split; [done | constructor].
    + intros [Hlen _]. destruct w; [constructor | simpl in Hlen; lia].
  - unfold Quest. split.
    + intros [Hm | ->%Matches_Empty_inv]%Matches_Alternate_inv.
      * apply Matches_Concat_inv in Hm as (w1 & w2 & -> & H1 & H2).
        apply Matches_Class_inv in H1 as (c & -> & Hc).
        apply IH in H2 as [Hlen Hall]. simpl. split; [lia | by constructor].
      * split; [simpl; lia | constructor].
    + intros [Hlen Hall]. destruct w as [|c w].
      * apply MAltR. constructor.
      * apply MAltL. inversion Hall; subst. simpl in Hlen.
        apply (MConcat _ _ [c] w); [by constructor|].
        apply IH. split; [lia | done].
Qed.
End Derivatives.

(** ** Runes of a string *)

Section Runes.
Import utf8 regexp.

Ltac by_bytes c := destruct c as [[] [] [] [] [] [] [] []]; vm_compute; done.

Lemma val_range c : 0 <= val c < 256.
Proof. by_bytes c. Qed.

Lemma val_inj c1 c2 : val c1 = val c2 → c1 = c2.
Proof.
  unfold val. intros Hv%(inj Z.of_N).
  rewrite <- (ascii_N_embedding c1), <- (ascii_N_embedding c2). by f_equal.
Qed.

Lemma lor_lower a b : 0 <= a → 0 <= b → a <= Z.lor a b.
Proof.
  intros Ha Hb.
  assert (Z.lor a b = a + Z.ldiff b a) as ->.
  { rewrite Z.add_nocarry_lxor.
    - apply Z.bits_inj'. intros n _.
      rewrite Z.lor_spec, Z.lxor_spec, Z.ldiff_spec.
      by destruct (Z.testbit a n), (Z.testbit b n).
    - apply Z.bits_inj'. intros n _.
      rewrite Z.land_spec, Z.ldiff_spec, Z.bits_0.
      by destruct (Z.testbit a n), (Z.testbit b n). }
  assert (0 <= Z.ldiff b a) by (apply Z.ldiff_nonneg; lia). lia.
Qed.

Lemma lor_upper a b : 0 <= a → 0 <= b → b <= Z.lor a b.
Proof. intros. rewrite Z.lor_comm. by apply lor_lower. Qed.

Lemma first_size s0 sz lo hi :
  first s0 = Some (sz, lo, hi) → (sz = 2 ∨ sz = 3 ∨ sz = 4) ∧ hi <= hicb.
Proof.
  unfold first, hicb. repeat case_match; intros [= <- <- <-]; lia.
Qed.

Lemma lead2 c lo hi : first (val c) = Some (2, lo, hi) → 2 <= Z.land (val c) mask2.
Proof. by_bytes c. Qed.

Lemma lead3 c lo hi :
  first (val c) = Some (3, lo, hi) → 1 <= Z.land (val c) mask3 ∨ lo = 0xA0.
Proof.
  destruct c as [[] [] [] [] [] [] [] []]; vm_compute; try done;
    intros [= <- <-]; (by left) || (by right).
Qed.

Lemma lead4 c lo hi :
  first (val c) = Some (4, lo, hi) → 1 <= Z.land (val c) mask4 ∨ lo = 0x90.
Proof.
  destruct c as [[] [] [] [] [] [] [] []]; vm_compute; try done;
    intros [= <- <-]; (by left) || (by right).
Qed.

Lemma second3 c : 0xA0 <= val c <= 0xBF → 0x20 <= Z.land (val c) maskx.
Proof.
  assert ((0xA0 <=? val c) && (val c <=? 0xBF) = true →
          (0x20 <=? Z.land (val c) maskx) = true) as Hb by by_bytes c.
  intros Hc. apply Z.leb_le, Hb. apply andb_true_iff.
  split; apply Z.leb_le; lia.
Qed.

Lemma second4 c : 0x90 <= val c <= 0xBF → 0x10 <= Z.land (val c) maskx.
Proof.
  assert ((0x90 <=? val c) && (val c <=? 0xBF) = true →
          (0x10 <=? Z.land (val c) maskx) = true) as Hb by by_bytes c.
  intros Hc. apply Z.leb_le, Hb. apply andb_true_iff.
  split; apply Z.leb_le; lia.
Qed.

Lemma land_mask_nonneg c m : 0 <= m → 0 <= Z.land (val c) m.
Proof. intros. apply Z.land_nonneg. by right. Qed.

Lemma shiftl_scaled x k n : 0 <= k → n <= x → n * 2 ^ k <= Z.shiftl x k.
Proof. intros Hk Hx. rewrite Z.shiftl_mul_pow2 by done. nia. Qed.

(** A byte that is not ASCII never decodes to an ASCII rune. *)
Lemma DecodeRuneInString_not_ascii c0 t :
  RuneSelf <= val c0 → RuneSelf <= fst (DecodeRuneInString (c0 :: t)).
Proof.
  intros Hc. unfold DecodeRuneInString.
  destruct (val c0 <? RuneSelf) eqn:E; [apply Z.ltb_lt in E; lia|].
  destruct (first (val c0)) as [[[sz lo] hi]|] eqn:Hf; [|done].
  destruct (first_size _ _ _ _ Hf) as [Hsz Hhi].
  destruct (Z.of_nat (length (c0 :: t)) <? sz); [done|].
  destruct t as [|c1 t1]; [done|].
  destruct (outside lo hi (val c1)) eqn:Ho; [done|].
  apply orb_false_iff in Ho as [Hlo Hhi'].
  apply Z.ltb_ge in Hlo, Hhi'.
  pose proof (land_mask_nonneg c1 maskx ltac:(done)) as Hn1.
  destruct (sz <=? 2) eqn:E2.
  { apply Z.leb_le in E2. assert (sz = 2) as -> by lia.
    apply lead2 in Hf. cbn [fst].
    etrans; [|apply lor_lower; [apply Z.shiftl_nonneg; lia | done]].
    etrans; [|apply (shiftl_scaled _ 6 2); [done | done]]. done. }
  apply Z.leb_gt in E2.
  destruct t1 as [|c2 t2]; [done|].
  destruct (outside locb hicb (val c2)); [done|].
  pose proof (land_mask_nonneg c2 maskx ltac:(done)) as Hn2.
  destruct (sz <=? 3) eqn:E3.
  { apply Z.leb_le in E3. assert (sz = 3) as -> by lia. cbn [fst].
    assert (0 <= Z.shiftl (Z.land (val c0) mask3) 12)
      by (apply Z.shiftl_nonneg, land_mask_nonneg; done).
    assert (0 <= Z.shiftl (Z.land (val c1) maskx) 6)
      by (by apply Z.shiftl_nonneg).
    etrans; [|apply lor_lower; [apply Z.lor_nonneg; done | done]].
    apply lead3 in Hf as [Hf | ->].
    - etrans; [|apply lor_lower; done].
      etrans; [|apply (shiftl_scaled _ 12 1); done]. done.
    - etrans; [|apply lor_upper; done].
      etrans; [|apply (shiftl_scaled _ 6 0x20); [done|]].
      + done.
      + apply second3. unfold hicb in *. lia. }
  apply Z.leb_gt in E3. assert (sz = 4) as -> by lia.
  destruct t2 as [|c3 t3]; [done|].
  destruct (outside locb hicb (val c3)); [done|].
  pose proof (land_mask_nonneg c3 maskx ltac:(done)) as Hn3.
  cbn [fst].
  assert (0 <= Z.shiftl (Z.land (val c0) mask4) 18)
    by (apply Z.shiftl_nonneg, land_mask_nonneg; done).
  assert (0 <= Z.shiftl (Z.land (val c1) maskx) 12)
    by (by apply Z.shiftl_nonneg).
  assert (0 <= Z.shiftl (Z.land (val c2) maskx) 6)
    by (by apply Z.shiftl_nonneg).
  etrans; [|apply lor_lower; [repeat (apply Z.lor_nonneg; split); done | done]].
  etrans; [|apply lor_lower; [apply Z.lor_nonneg; done | done]].
  apply lead4 in Hf as [Hf | ->].
  - etrans; [|apply lor_lower; done].
    etrans; [|apply (shiftl_scaled _ 18 1); done]. done.
  - etrans; [|apply lor_upper; done].
    etrans; [|apply (shiftl_scaled _ 12 0x10); [done|]].
    + done.
    + apply second4. unfold hicb in *. lia.
Qed.

Lemma runes_at_ascii s :
  Forall (λ c, val c < RuneSelf) s → runes_at 0 s = map val s.
Proof.
  induction 1 as [|c s Hc _ IH]; [done|].
  cbn [runes_at DecodeRuneInString].
  destruct (val c <? RuneSelf) eqn:E; [|apply Z.ltb_ge in E; lia].
  simpl. by rewrite IH.
Qed.

Lemma runes_at_small s :
  Forall (λ r, r < RuneSelf) (runes_at 0 s) → Forall (λ c, val c < RuneSelf) s.
Proof.
  induction s as [|c s IH]; [constructor|].
  intros Hall. destruct (Z.lt_ge_cases (val c) RuneSelf) as [Hlt|Hge].
  - constructor; [done|]. apply IH.
    cbn [runes_at DecodeRuneInString] in Hall.
    destruct (val c <? RuneSelf) eqn:E; [|apply Z.ltb_ge in E; lia].
    simpl in Hall. by inversion Hall.
  - pose proof (DecodeRuneInString_not_ascii c s Hge) as Hr.
    cbn [runes_at] in Hall.
    destruct (DecodeRuneInString (c :: s)) as [r w].
    inversion Hall; subst. simpl in Hr. lia.
Qed.
End Runes.

(** ** The names that [Validate] lets through *)

Section Names.
Import utf8 regexp.

Lemma letter_val c : letter (val c) = true ↔ ascii_letter c.
Proof.
  unfold letter, range, ascii_letter.
  change (val "A") with 65. change (val "Z") with 90.
  change (val "a") with 97. change (val "z") with 122.
  rewrite orb_true_iff, !andb_true_iff, !Z.leb_le. tauto.
Qed.

Lemma letterOrSpace_val c : letterOrSpace (val c) = true ↔ letter_or_space c.
Proof.
  unfold letterOrSpace, letter_or_space, one.
  rewrite orb_true_iff, letter_val, Z.eqb_eq.
  split; (intros [?|Hsp]; [by left | right]).
  - by apply val_inj.
  - by subst c.
Qed.

Lemma letterOrSpace_ascii r : letterOrSpace r = true → r < RuneSelf.
Proof.
  unfold letterOrSpace, letter, range, one.
  change (val "A") with 65. change (val "Z") with 90.
  change (val "a") with 97. change (val "z") with 122.
  change (val " ") with 32. unfold RuneSelf.
  rewrite !orb_true_iff, !andb_true_iff, !Z.leb_le, Z.eqb_eq. lia.
Qed.

Lemma letter_ascii r : letter r = true → r < RuneSelf.
Proof.
  intros Hl. apply letterOrSpace_ascii. unfold letterOrSpace. by rewrite Hl.
Qed.

(** The language of [nameRegex], on runes. *)
Lemma nameRegex_Matches w :
  Matches nameRegex w ↔
  ∃ a mid z, w = a :: mid ++ [z] ∧ letter a = true ∧ letter z = true ∧
             (length mid ≤ 48)%nat ∧ Forall (λ c, letterOrSpace c = true) mid.
Proof.
  unfold nameRegex, Repeat. cbn [copies Nat.sub]. split.
  - intros (w1 & w' & -> & (a & -> & Ha)%Matches_Class_inv & Hm)%Matches_Concat_inv.
    apply Matches_Concat_inv in Hm as (w2 & w3 & -> & Hmid & Hz).
    apply Matches_Class_inv in Hz as (z & -> & Hz).
    apply Matches_Concat_inv in Hmid as (w0 & mid & -> & ->%Matches_Empty_inv & Hmid).
    apply Matches_upto_class in Hmid as [Hlen Hall].
    exists a, mid, z. done.
  - intros (a & mid & z & -> & Ha & Hz & Hlen & Hall).
    apply (MConcat _ _ [a] (mid ++ [z])); [by constructor|].
    apply MConcat; [|by constructor].
    apply (MConcat _ _ [] mid); [constructor|].
    by apply Matches_upto_class.
Qed.

Lemma length_list_ascii s :
  length (list_ascii_of_string s) = String.length s.
Proof. induction s as [|c s IH]; simpl; congruence. Qed.

(** The language of [nameRegex], on the bytes of a string. *)
Lemma MatchString_nameRegex t :
  MatchString nameRegex t = true ↔
  ∃ a mid z, list_ascii_of_string t = a :: mid ++ [z] ∧
             ascii_letter a ∧ ascii_letter z ∧
             (length mid ≤ 48)%nat ∧ Forall letter_or_space mid.
Proof.
  unfold MatchString, runes. rewrite matchRunes_Matches, nameRegex_Matches.
  set (s := list_ascii_of_string t). clearbody s. split.
  - intros (a & mid & z & Hw & Ha & Hz & Hlen & Hall).
    assert (Forall (λ r, r < RuneSelf) (runes_at 0 s)) as Hsmall.
    { rewrite Hw. constructor; [by apply letter_ascii|].
      apply Forall_app. split.
      - eapply Forall_impl; [done|]. apply letterOrSpace_ascii.
      - constructor; [by apply letter_ascii | constructor]. }
    apply runes_at_small, runes_at_ascii in Hsmall. rewrite Hsmall in Hw.
    destruct s as [|a' s']; [done|]. injection Hw as <- Hw.
    apply map_eq_app in Hw as (mid' & l & -> & <- & Hl).
    destruct l as [|z' [|? ?]]; try done. injection Hl as <-.
    exists a', mid', z'. rewrite length_map in Hlen.
    rewrite <- !letter_val. repeat split; try done.
    apply Forall_map in Hall. eapply Forall_impl; [done|].
    intros c. apply letterOrSpace_val.
  - intros (a & mid & z & -> & Ha & Hz & Hlen & Hall).
    apply letter_val in Ha, Hz.
    assert (Forall (λ c, letterOrSpace (val c) = true) mid) as Hall'.
    { eapply Forall_impl; [done|]. intros c. apply letterOrSpace_val. }
    rewrite runes_at_ascii.
    + exists (val a), (map val mid), (val z).
      rewrite length_map, Forall_map. simpl. by rewrite map_app.
    + constructor; [by apply letter_ascii|]. apply Forall_app. split.
      * eapply Forall_impl; [done|]. intros c. apply letterOrSpace_ascii.
      * constructor; [by apply letter_ascii | constructor].
Qed.

(** The two name checks of [Validate] together. *)
Lemma name_checks t :
  (len t <? 2) || (50 <? len t) = false ∧ MatchString nameRegex t = true ↔
  name_shape t.
Proof.
  rewrite orb_false_iff, !Z.ltb_ge, MatchString_nameRegex. unfold name_shape.
  split.
  - intros [Hlen (a & mid & z & Ht & Ha & Hz & _ & Hall)]. split; [lia|].
    eauto 8.
  - intros [Hlen (a & mid & z & Ht & Ha & Hz & Hall)]. split; [lia|].
    exists a, mid, z. repeat split; try done.
    unfold len in Hlen. rewrite <- length_list_ascii, Ht in Hlen.
    simpl in Hlen. rewrite length_app in Hlen. simpl in Hlen. lia.
Qed.
End Names.

(** ** Records sit under their ids; the maps have one size *)

Section RepositoryMore.
Implicit Types (r : InMemoryUserRepository) (u x y : User) (id e : string).

Lemma repo_eq r1 r2 :
  users r1 = users r2 → emails r1 = emails r2 → r1 = r2.
Proof. destruct r1, r2. simpl. by intros -> ->. Qed.

Lemma Update_ok_cases u r r' :
  Update u r = (None, r') →
  ∃ old, users r !! ID u = Some old ∧
    users r' = <[ID u := u]> (users r) ∧
    ((Email old = Email u ∧ emails r' = emails r) ∨
     (Email old ≠ Email u ∧
      (∀ other, emails r !! Email u = Some other → other = ID u) ∧
      emails r' = <[Email u := ID u]> (delete (Email old) (emails r)))).
Proof.
  destruct (Update_cases u r)
    as [[_ ->] | [(? & ? & _ & _ & _ & _ & ->)
       | [(old & Hold & Heq & ->) | (old & Hold & Hne & Hfree & ->)]]];
    try discriminate; intros [= <-]; exists old; simpl; eauto 8.
Qed.

Lemma Update_error u r err r' : Update u r = (Some err, r') → r' = r.
Proof.
  destruct (Update_cases u r)
    as [[_ ->] | [(? & ? & _ & _ & _ & _ & ->)
       | [(? & _ & _ & ->) | (? & _ & _ & _ & ->)]]];
    try discriminate; by intros [= _ <-].
Qed.

Lemma keyed_exec o r : keyed r → keyed (exec o r).
Proof.
  intros Hk. destruct o as [x| | | |x|id|]; simpl; try done.
  - destruct (Create_cases x r) as [-> | [r' Hok]]; [done|].
    rewrite Hok. apply Create_ok in Hok as (_ & _ & ->).
    intros id u. simpl. rewrite lookup_insert. case_decide.
    + by intros [= <-].
    + apply Hk.
  - destruct (Update x r) as [[err|] r'] eqn:Hu.
    + by apply Update_error in Hu as ->.
    + apply Update_ok_users in Hu. intros id u. simpl. rewrite Hu.
      rewrite lookup_insert. case_decide.
      * by intros [= <-].
      * apply Hk.
  - destruct (Delete_cases id r) as [-> | [r' Hok]]; [done|].
    rewrite Hok. apply Delete_ok in Hok as (old & _ & ->).
    intros id' u. simpl. rewrite lookup_delete. case_decide; [done | apply Hk].
Qed.

Lemma reachable_keyed r : reachable r → keyed r.
Proof.
  induction 1; [|by apply keyed_exec].
  intros id u. simpl. by rewrite lookup_empty.
Qed.

Lemma size_exec o r :
  consistent r → size (emails r) = size (users r) →
  size (emails (exec o r)) = size (users (exec o r)).
Proof.
  intros [Hfwd Hbwd] Hsz. destruct o as [x| | | |x|id|]; simpl; try done.
  - destruct (Create_cases x r) as [-> | [r' Hok]]; [done|].
    rewrite Hok. apply Create_ok in Hok as (Hid & He & ->). simpl.
    rewrite !map_size_insert_None by done. by rewrite Hsz.
  - destruct (Update x r) as [[err|] r'] eqn:Hu.
    + by apply Update_error in Hu as ->.
    + simpl. apply Update_ok_cases in Hu
        as (old & Hold & Hus & [[_ Hes] | (Hne & Hfree & Hes)]);
        rewrite Hus, Hes, (map_size_insert_Some (ID x)) by eauto; [done|].
      rewrite map_size_insert_None.
      * rewrite map_size_delete_Some by (apply Hfwd in Hold; eauto).
        rewrite Hsz. pose proof (Hfwd _ _ Hold) as Hidx.
        assert (size (users r) ≠ 0%nat); [|lia].
        apply map_size_ne_0_lookup_2 with (ID x). eauto.
      * rewrite lookup_delete_ne by done.
        destruct (emails r !! Email x) as [other|] eqn:Hidx; [|done].
        pose proof (Hfree _ eq_refl) as ->.
        apply Hbwd in Hidx as (u' & Hu' & He'). congruence.
  - destruct (Delete_cases id r) as [-> | [r' Hok]]; [done|].
    rewrite Hok. apply Delete_ok in Hok as (old & Hold & ->). simpl.
    rewrite !map_size_delete_Some by eauto. by rewrite Hsz.
Qed.

Lemma reachable_sizes r : reachable r → size (emails r) = size (users r).
Proof.
  induction 1 as [|o r Hr IH]; [done|].
  apply size_exec; [by apply reachable_is_consistent | done].
Qed.
End RepositoryMore.

(** * The claims *)

Section Claims.
Context `{unicode.CaseRanges}.
Implicit Types (r : InMemoryUserRepository) (u x y : User) (id : string).

(** C1. Of two creations of records with distinct ids and the same e-mail,
    issued one after the other from any store and in either order, at most
    one succeeds: once the first has succeeded the second returns
    [ErrAlreadyExists] and changes nothing.  This holds in the repository
    for records with equal [Email] fields, and in the service for inputs
    whose e-mails are equal after normalization (lower-casing, then
    trimming).  [Create] returns [ErrAlreadyExists] exactly when the id is
    a key of the primary map or the e-mail is a key of the reverse index;
    otherwise it succeeds and inserts the record into both maps. *)
Theorem create_same_email_at_most_once r x y :
  ID x ≠ ID y →
  (Email x = Email y →
   (∀ r1, Create x r = (None, r1) → Create y r1 = (Some ErrAlreadyExists, r1)) ∧
   (∀ r1, Create y r = (None, r1) → Create x r1 = (Some ErrAlreadyExists, r1))) ∧
  (gostrings.TrimSpace (gostrings.ToLower (Email x)) =
   gostrings.TrimSpace (gostrings.ToLower (Email y)) →
   ∀ tx ty,
     (∀ ux r1, CreateUser (ID x) tx (Name x) (Email x) (Age x) r = (Ok ux, r1) →
        ∃ err, CreateUser (ID y) ty (Name y) (Email y) (Age y) r1 = (Err err, r1)) ∧
     (∀ uy r1, CreateUser (ID y) ty (Name y) (Email y) (Age y) r = (Ok uy, r1) →
        ∃ err, CreateUser (ID x) tx (Name x) (Email x) (Age x) r1 = (Err err, r1))) ∧
  (Create x r = (Some ErrAlreadyExists, r) ↔
   is_Some (users r !! ID x) ∨ is_Some (emails r !! Email x)) ∧
  (Create x r = (Some ErrAlreadyExists, r) ∨
   Create x r = (None, {| users := <[ID x := x]> (users r);
                          emails := <[Email x := ID x]> (emails r) |})).
Proof.
  intros Hid.
  assert (Hrepo : ∀ a b r0 r1, Email a = Email b →
            Create a r0 = (None, r1) → Create b r1 = (Some ErrAlreadyExists, r1)).
  { intros a b r0 r1 He (_ & _ & ->)%Create_ok. apply Create_error. right.
    simpl. rewrite <- He, lookup_insert_eq. eauto. }
  assert (Hsrv : ∀ ia ib ta tb na nb ea eb aa ab r0 r1 ua,
            gostrings.TrimSpace (gostrings.ToLower ea) =
            gostrings.TrimSpace (gostrings.ToLower eb) →
            CreateUser ia ta na ea aa r0 = (Ok ua, r1) →
            ∃ err, CreateUser ib tb nb eb ab r1 = (Err err, r1)).
  { intros ia ib ta tb na nb ea eb aa ab r0 r1 ua He [Hn Hc]%CreateUser_ok.
    apply NewUser_ok in Hn. unfold CreateUser.
    destruct (NewUser tb ib nb eb ab) as [ub|err] eqn:Hb; [|eauto].
    apply NewUser_ok in Hb.
    rewrite (Hrepo ua ub r0 r1); [eauto | by subst | done]. }
  split; [|split; [|split]].
  - intros He. split; intros r1; [by apply Hrepo | by apply Hrepo].
  - intros He tx ty. split; intros u0 r1; [by apply Hsrv | by apply Hsrv].
  - apply Create_error.
  - destruct (Create_cases x r) as [? | [r' Hok]]; [by left | right].
    by pose proof Hok as (_ & _ & ->)%Create_ok.
Qed.

(** C2. In every store that calls of the repository build from the empty
    one, the two maps agree: each record of the primary map is indexed
    under its e-mail by its own key, and each entry of the reverse index
    leads to a record that carries that e-mail.  Hence no two live records
    share an e-mail. *)
Theorem reachable_consistent r :
  reachable r → consistent r ∧ unique_emails r.
Proof.
  intros Hr%reachable_is_consistent. split; [done | by apply consistent_unique].
Qed.

(** C5. [Update] returns [ErrNotFound] when the id is not a key of the
    primary map.  When it is and the new e-mail differs from the stored
    one, it returns [ErrAlreadyExists] exactly when the new e-mail is
    indexed under another id, and otherwise moves the index entry and
    replaces the record.  When the new e-mail is the stored one it always
    succeeds, replaces the record and leaves the index as it is. *)
Theorem Update_outcomes r u :
  (users r !! ID u = None → Update u r = (Some ErrNotFound, r)) ∧
  (∀ old, users r !! ID u = Some old → Email old ≠ Email u →
     (Update u r = (Some ErrAlreadyExists, r) ↔
      ∃ other, emails r !! Email u = Some other ∧ other ≠ ID u) ∧
     (Update u r = (Some ErrAlreadyExists, r) ∨
      Update u r =
      (None, {| users := <[ID u := u]> (users r);
                emails := <[Email u := ID u]> (delete (Email old) (emails r)) |}))) ∧
  (∀ old, users r !! ID u = Some old → Email old = Email u →
     Update u r = (None, {| users := <[ID u := u]> (users r);
                            emails := emails r |})).
Proof.
  split; [apply Update_absent | split].
  - intros old Hold Hne.
    destruct (Update_cases u r)
      as [[Hno _] | [(old' & other & Hold' & _ & Hidx & Hother & Hu)
         | [(old' & Hold' & Heq & _) | (old' & Hold' & _ & Hfree & Hu)]]].
    + congruence.
    + split; [|by left]. split; [eauto | done].
    + congruence.
    + assert (old' = old) as -> by congruence. split; [|by right].
      rewrite Hu. split; [discriminate|].
      intros (other & Hidx & Hother). by apply Hfree in Hidx.
  - intros old. apply Update_same_email.
Qed.

(** C8. [Delete] of an id that is present succeeds, and the same [Delete]
    run again on the store it leaves returns [ErrNotFound].  [Delete] of an
    id that is absent returns [ErrNotFound] and leaves the store as it is. *)
Theorem Delete_not_idempotent r id :
  (∀ u, users r !! id = Some u →
     ∃ r', Delete id r = (None, r') ∧ Delete id r' = (Some ErrNotFound, r')) ∧
  (users r !! id = None → Delete id r = (Some ErrNotFound, r)).
Proof.
  unfold Delete. split.
  - intros u ->. eexists. split; [done|]. simpl. by rewrite lookup_delete_eq.
  - by intros ->.
Qed.

(** C10. In every store that calls of the repository build from the empty
    one, the id that [GetByEmail] finds in the reverse index is a key of
    the primary map, so the call never reads through nil: it returns
    [ErrNotFound], the e-mail being unindexed, or a copy of a stored
    record whose e-mail is the one asked for. *)
Theorem GetByEmail_never_panics r email :
  reachable r →
  (∀ id, emails r !! email = Some id → is_Some (users r !! id)) ∧
  GetByEmail email r ≠ Panics ∧
  ((emails r !! email = None ∧ GetByEmail email r = Fails ErrNotFound) ∨
   (∃ id u, users r !! id = Some u ∧ Email u = email ∧
            GetByEmail email r = Returns u)).
Proof.
  intros [_ Hbwd]%reachable_is_consistent. unfold GetByEmail.
  destruct (emails r !! email) as [id|] eqn:Hidx.
  - destruct (Hbwd _ _ Hidx) as (u & Hu & He). rewrite Hu, Clone_same.
    split; [|split; [done|]].
    + intros ? [= <-]. eauto.
    + right. eauto.
  - split; [done | split; [done | by left]].
Qed.

(** C3 (amended). Whenever [Create], [Update], [Delete], [CreateUser] or
    [UpdateUser] returns an error, the store (both maps) is what it was
    before the call.  [CreateUser] validates before it calls the store: a
    validation error is returned whatever the store holds.  [UpdateUser]
    first reads the record with [GetByID], which changes nothing, and
    validates afterwards: for an id that is absent it returns
    [ErrNotFound] whatever the data; for an id that is present it
    validates the new data, under the creation time of the record, before
    the store's [Update]: a validation error is returned with the store
    as it was, and otherwise the call is the store's [Update] of the
    validated record. *)
Theorem failure_changes_nothing r err r' :
  (∀ u, Create u r = (Some err, r') → r' = r) ∧
  (∀ u, Update u r = (Some err, r') → r' = r) ∧
  (∀ id, Delete id r = (Some err, r') → r' = r) ∧
  (∀ id now name email age,
     CreateUser id now name email age r = (Err err, r') → r' = r) ∧
  (∀ now id name email age,
     UpdateUser now id name email age r = (Err err, r') → r' = r) ∧
  (∀ id now name email age,
     NewUser now id name email age = Err err →
     CreateUser id now name email age r = (Err err, r)) ∧
  (∀ now id name email age,
     users r !! id = None →
     UpdateUser now id name email age r = (Err ErrNotFound, r)) ∧
  (∀ now id name email age old u',
     users r !! id = Some old →
     Validate {| ID := id; Name := name; Email := email; Age := age;
                 CreatedAt := CreatedAt old; UpdatedAt := now |}
       = (u', Some err) →
     UpdateUser now id name email age r = (Err err, r)) ∧
  (∀ now id name email age old u',
     users r !! id = Some old →
     Validate {| ID := id; Name := name; Email := email; Age := age;
                 CreatedAt := CreatedAt old; UpdatedAt := now |}
       = (u', None) →
     UpdateUser now id name email age r
       = match Update u' r with
         | (Some e, r1) => (Err e, r1)
         | (None, r1) => (Ok u', r1)
         end).
Proof.
  repeat split.
  - intros u. destruct (Create_cases u r) as [-> | [r1 ->]]; [|discriminate].
    by intros [= _ <-].
  - intros u.
    destruct (Update_cases u r)
      as [[_ ->] | [(? & ? & _ & _ & _ & _ & ->)
         | [(? & _ & _ & ->) | (? & _ & _ & _ & ->)]]];
      try discriminate; by intros [= _ <-].
  - intros id. destruct (Delete_cases id r) as [-> | [r1 ->]]; [|discriminate].
    by intros [= _ <-].
  - intros id now name email age. apply CreateUser_error.
  - intros now id name email age. apply UpdateUser_error.
  - intros id now name email age Hn. unfold CreateUser. by rewrite Hn.
  - intros now id name email age Hno. unfold UpdateUser, GetByID. by rewrite Hno.
  - intros now id name email age old u' Hold Hv.
    unfold UpdateUser, GetByID. by rewrite Hold, Clone_same, Hv.
  - intros now id name email age old u' Hold Hv.
    unfold UpdateUser, GetByID. by rewrite Hold, Clone_same, Hv.
Qed.

(** C4 (amended). [Validate] trims the name, and returns
    [ErrInvalidUserName] exactly when the trimmed name fails to have this
    shape: 2 to 50 bytes, an ASCII letter first and last, and in between
    ASCII letters and spaces only, where spaces may follow one another. *)
Theorem Validate_name_shape u :
  Name (fst (Validate u)) = gostrings.TrimSpace (Name u) ∧
  (snd (Validate u) = Some ErrInvalidUserName ↔
   ¬ name_shape (gostrings.TrimSpace (Name u))).
Proof.
  rewrite <- name_checks.
  unfold Validate. cbn [ID Name Email Age CreatedAt UpdatedAt].
  destruct (_ || _) eqn:Hlen.
  { simpl. split; [done|]. split; [intros _ [[=] _] | done]. }
  destruct (regexp.MatchString nameRegex _) eqn:Hm; cbn [negb].
  - repeat case_match; simpl; (split; [done|]); split; try done; intros []; done.
  - simpl. split; [done|]. split; [intros _ [_ [=]] | done].
Qed.

(** C6. When [CreateUser] succeeds, [GetUser] on the id of the record it
    returned succeeds on the store it left, and returns that very record:
    the same id, name, e-mail, age and the two timestamps, both the time
    of the creation. *)
Theorem create_then_get id now name email age r u r' :
  CreateUser id now name email age r = (Ok u, r') →
  GetUser (ID u) r' = Ok u ∧
  ID u = id ∧ CreatedAt u = now ∧ UpdatedAt u = now.
Proof.
  intros [Hn Hc]%CreateUser_ok. apply NewUser_ok in Hn.
  apply Create_ok in Hc as (_ & _ & ->). unfold GetUser, GetByID. simpl.
  rewrite lookup_insert_eq, Clone_same. by subst u.
Qed.


(** C9. After [Delete] of an id that is present, which succeeds, the
    e-mail of the deleted record is free: [Create] of any record with
    that e-mail and an id that is not in the store succeeds, and so does
    [CreateUser] for any input that passes validation, normalizes to that
    e-mail and comes with such an id. *)
Theorem Delete_frees_email r id old :
  users r !! id = Some old →
  ∃ r', Delete id r = (None, r') ∧
    (∀ y, users r' !! ID y = None → Email y = Email old →
          ∃ r'', Create y r' = (None, r'')) ∧
    (∀ id' now name email age y,
       users r' !! id' = None →
       NewUser now id' name email age = Ok y → Email y = Email old →
       ∃ r'', CreateUser id' now name email age r' = (Ok y, r'')).
Proof.
  intros Hold. eexists. split; [unfold Delete; by rewrite Hold|].
  assert (Hcreate : ∀ y,
    users {| users := delete id (users r);
             emails := delete (Email old) (emails r) |} !! ID y = None →
    Email y = Email old →
    ∃ r'', Create y {| users := delete id (users r);
                       emails := delete (Email old) (emails r) |} = (None, r'')).
  { intros y Hfresh He. eexists. apply Create_ok. split; [done|].
    split; [|done]. simpl. rewrite He. apply lookup_delete_eq. }
  split; [done|].
  intros id' now name email age y Hfresh Hn He.
  pose proof (NewUser_ok _ _ _ _ _ _ Hn) as Hy.
  destruct (Hcreate y) as [r'' Hc]; [by subst y | done |].
  exists r''. by apply CreateUser_ok.
Qed.

End Claims.

(** * The claims on the sample data *)

(** C1 at [john] and [jane], who share an e-mail: once [john] is in the
    store, the creation of [jane] fails. *)
Lemma create_same_email_at_most_once_witness :
  ID john ≠ ID jane ∧ Email john = Email jane ∧
  Create jane (snd (Create john NewInMemoryUserRepository)) =
  (Some ErrAlreadyExists, snd (Create john NewInMemoryUserRepository)).
Proof.
  assert (Hid : ID john ≠ ID jane) by discriminate.
  split; [exact Hid | split; [reflexivity|]].
  destruct (@create_same_email_at_most_once NoCaseRanges
              NewInMemoryUserRepository john jane Hid) as [Hrepo _].
  destruct (Hrepo eq_refl) as [Hfirst _]. apply Hfirst. reflexivity.
Defined.

(** C2 at the store that holds [john]. *)
Lemma reachable_consistent_witness :
  reachable (exec (OpCreate john) NewInMemoryUserRepository) ∧
  consistent (exec (OpCreate john) NewInMemoryUserRepository) ∧
  unique_emails (exec (OpCreate john) NewInMemoryUserRepository).
Proof.
  assert (Hr : reachable (exec (OpCreate john) NewInMemoryUserRepository))
    by (apply reachable_exec, reachable_new).
  split; [exact Hr|]. exact (reachable_consistent _ Hr).
Defined.

(** C3 as stated fails for [UpdateUser]: with a name that validation
    rejects and an id that the store does not hold, the error returned is
    the store's [ErrNotFound], not the validator's: the store is consulted
    first. *)
Lemma UpdateUser_looks_up_before_validating :
  snd (@Validate NoCaseRanges
         {| ID := "id-9"; Name := "A"; Email := "a@example.com"; Age := 30;
            CreatedAt := 0; UpdatedAt := 12 |}) = Some ErrInvalidUserName ∧
  @UpdateUser NoCaseRanges 12 "id-9" "A" "a@example.com" 30
    NewInMemoryUserRepository
  = (Err ErrNotFound, NewInMemoryUserRepository).
Proof. split; reflexivity. Qed.

(** C4 as stated fails: [Validate] accepts the name of [spaced], in which
    a space follows a space. *)
Lemma Validate_accepts_double_space :
  snd (@Validate NoCaseRanges spaced) = None ∧
  ¬ name_shape_single_spaces (gostrings.TrimSpace (Name spaced)).
Proof.
  split; [reflexivity|]. intros [_ Hs].
  apply (Hs ["J"; "o"]%char ["h"; "n"]%char). reflexivity.
Qed.

(** C6 at the creation of [john] in the empty store. *)
Lemma create_then_get_witness :
  @CreateUser NoCaseRanges "id-1" 10 "John Doe" "John@Example.com" 30
    NewInMemoryUserRepository = (Ok john, store_with_john) ∧
  GetUser "id-1" store_with_john = Ok john.
Proof.
  assert (Hc : @CreateUser NoCaseRanges "id-1" 10 "John Doe" "John@Example.com" 30
                 NewInMemoryUserRepository = (Ok john, store_with_john))
    by reflexivity.
  split; [exact Hc|].
  exact (proj1 (@create_then_get NoCaseRanges _ _ _ _ _ _ _ _ Hc)).
Defined.



(** C9 at the store that holds [john]: once he is deleted, [jane] can be
    created with his e-mail. *)
Lemma Delete_frees_email_witness :
  users store_with_john !! "id-1" = Some john ∧
  ∃ r' r'', Delete "id-1" store_with_john = (None, r') ∧
            Create jane r' = (None, r'').
Proof.
  assert (Hj : users store_with_john !! "id-1" = Some john) by reflexivity.
  split; [exact Hj|].
  destruct (@Delete_frees_email NoCaseRanges _ _ _ Hj) as (r' & Hd & Hc & _).
  assert (Hr' : r' = snd (Delete "id-1" store_with_john)) by (by rewrite Hd).
  destruct (Hc jane) as [r'' Hc'].
  - rewrite Hr'. reflexivity.
  - reflexivity.
  - exists r', r''. split; [exact Hd | exact Hc'].
Defined.

(** C10 at the store that holds [john]. *)
Lemma GetByEmail_never_panics_witness :
  reachable (exec (OpCreate john) NewInMemoryUserRepository) ∧
  GetByEmail "john@example.com" (exec (OpCreate john) NewInMemoryUserRepository)
  ≠ Panics.
Proof.
  assert (Hr : reachable (exec (OpCreate john) NewInMemoryUserRepository))
    by (apply reachable_exec, reachable_new).
  split; [exact Hr|].
  exact (proj1 (proj2 (GetByEmail_never_panics _ "john@example.com" Hr))).
Defined.

(** * Further properties *)

(** ** More on the repository *)

Section RepositoryExtras.
Context `{unicode.CaseRanges}.
Implicit Types (r : InMemoryUserRepository) (u x y : User) (id e : string).

(** X1. [GetAll] never fails; it returns one copy of each record of the
    primary map and nothing else, and as many of them as [Count] reports. *)
Theorem GetAll_lists_the_records r :
  ∃ l, GetAll r = Ok l ∧ Z.of_nat (length l) = Count r ∧
       ∀ u, u ∈ l ↔ ∃ id, users r !! id = Some u.
Proof.
  eexists. split; [done|]. split.
  - unfold Count. by rewrite length_fmap, length_map_to_list.
  - intros u. rewrite list_elem_of_fmap. split.
    + intros ([id u'] & -> & Hin%elem_of_map_to_list). rewrite Clone_same. eauto.
    + intros [id Hu]. exists (id, u). rewrite Clone_same.
      split; [done | by apply elem_of_map_to_list].
Qed.

(** X2. A successful [Create] raises [Count] by one, a successful [Delete]
    lowers it by one, and a successful [Update] leaves it as it is. *)
Theorem Count_after_success r r' :
  (∀ x, Create x r = (None, r') → Count r' = Count r + 1) ∧
  (∀ u, Update u r = (None, r') → Count r' = Count r) ∧
  (∀ id, Delete id r = (None, r') → Count r' = Count r - 1).
Proof.
  unfold Count. repeat split.
  - intros x (Hid & _ & ->)%Create_ok. simpl.
    rewrite map_size_insert_None by done. lia.
  - intros u (old & Hold & -> & _)%Update_ok_cases.
    by rewrite map_size_insert_Some by eauto.
  - intros id (old & Hold & ->)%Delete_ok. simpl.
    rewrite map_size_delete_Some by eauto.
    assert (size (users r) ≠ 0%nat); [|lia].
    apply map_size_ne_0_lookup_2 with id. eauto.
Qed.

(** X3. [Create], [Update] and [Delete] touch one id only: whether they
    succeed or fail, [GetByID] answers for every other id as before. *)
Theorem other_ids_untouched r id' :
  (∀ x, ID x ≠ id' → GetByID id' (snd (Create x r)) = GetByID id' r) ∧
  (∀ x, ID x ≠ id' → GetByID id' (snd (Update x r)) = GetByID id' r) ∧
  (∀ id, id ≠ id' → GetByID id' (snd (Delete id r)) = GetByID id' r).
Proof.
  unfold GetByID. repeat split.
  - intros x Hne. destruct (Create_cases x r) as [-> | [r' Hok]]; [done|].
    rewrite Hok. apply Create_ok in Hok as (_ & _ & ->). simpl.
    by rewrite lookup_insert_ne.
  - intros x Hne. destruct (Update x r) as [[err|] r'] eqn:Hu; simpl.
    + by apply Update_error in Hu as ->.
    + apply Update_ok_users in Hu as ->. by rewrite lookup_insert_ne.
  - intros id Hne. destruct (Delete_cases id r) as [-> | [r' Hok]]; [done|].
    rewrite Hok. apply Delete_ok in Hok as (old & _ & ->). simpl.
    by rewrite lookup_delete_ne.
Qed.

(** X4. [Delete] undoes [Create]: deleting the id of a record that was
    just created succeeds and gives back the store as it was before the
    creation, both maps. *)
Theorem Delete_undoes_Create r x r1 :
  Create x r = (None, r1) → Delete (ID x) r1 = (None, r).
Proof.
  intros (Hid & He & ->)%Create_ok. unfold Delete. simpl.
  rewrite lookup_insert_eq. f_equal. apply repo_eq; simpl.
  - by apply delete_insert_id.
  - by apply delete_insert_id.
Qed.

(** X5. [Update] is idempotent: a successful update, run once more on the
    store it left, succeeds again and leaves that store as it is. *)
Theorem Update_idempotent r u r1 :
  Update u r = (None, r1) → Update u r1 = (None, r1).
Proof.
  intros (old & Hold & Hus & _)%Update_ok_cases.
  rewrite (Update_same_email u u r1); [|rewrite Hus; apply lookup_insert_eq | done].
  f_equal. apply repo_eq; simpl; [|done].
  by rewrite Hus, insert_insert_eq.
Qed.

(** X6. A user created through the service is found by e-mail under the
    normalized form (lower-cased, then trimmed) of the e-mail given. *)
Theorem created_user_found_by_email id now name email age r u r' :
  CreateUser id now name email age r = (Ok u, r') →
  Email u = gostrings.TrimSpace (gostrings.ToLower email) ∧
  GetUserByEmail (gostrings.TrimSpace (gostrings.ToLower email)) r' = Returns u.
Proof.
  intros [Hn Hc]%CreateUser_ok. apply NewUser_ok in Hn.
  apply Create_ok in Hc as (_ & _ & ->).
  assert (Email u = gostrings.TrimSpace (gostrings.ToLower email)) as He
    by (by subst u).
  split; [done|]. rewrite <- He. unfold GetUserByEmail, GetByEmail. simpl.
  by rewrite !lookup_insert_eq, Clone_same.
Qed.

(** X7. In every store that calls of the repository build from the empty
    one, each record sits under its own id, and the reverse index has
    exactly as many entries as there are records. *)
Theorem reachable_index_exact r :
  reachable r →
  (∀ id u, users r !! id = Some u → ID u = id) ∧
  Z.of_nat (size (emails r)) = Count r.
Proof.
  intros Hr. split; [by apply reachable_keyed|].
  unfold Count. by rewrite reachable_sizes.
Qed.

(** X8. In every such store the two lookups agree: [GetByEmail] returns a
    record for an e-mail exactly when [GetByID] returns that record for
    its id and the record carries that e-mail. *)
Theorem lookups_agree r e u :
  reachable r →
  GetByEmail e r = Returns u ↔ GetByID (ID u) r = Ok u ∧ Email u = e.
Proof.
  intros Hr. pose proof (reachable_keyed _ Hr) as Hk.
  destruct (reachable_is_consistent _ Hr) as [Hfwd Hbwd].
  unfold GetByEmail, GetByID. split.
  - destruct (emails r !! e) as [id|] eqn:Hidx; [|discriminate].
    destruct (Hbwd _ _ Hidx) as (u' & Hu' & He'). rewrite Hu', Clone_same.
    intros [= <-]. rewrite (Hk _ _ Hu'), Hu', Clone_same. done.
  - destruct (users r !! ID u) as [u'|] eqn:Hu'; [|by intros [[=] _]].
    rewrite Clone_same. intros [[= ->] <-].
    by rewrite (Hfwd _ _ Hu'), Hu', Clone_same.
Qed.

(** X9. In every such store, deleting a record makes both lookups of it
    fail with [ErrNotFound], while every other record is still found, by
    its id and by its e-mail. *)
Theorem Delete_removes_one_record r id old :
  reachable r → users r !! id = Some old →
  ∃ r', Delete id r = (None, r') ∧
    GetByID id r' = Err ErrNotFound ∧
    GetByEmail (Email old) r' = Fails ErrNotFound ∧
    ∀ id' u, id' ≠ id → users r !! id' = Some u →
             GetByID id' r' = Ok u ∧ GetByEmail (Email u) r' = Returns u.
Proof.
  intros Hr Hold. destruct (reachable_is_consistent _ Hr) as [Hfwd Hbwd].
  eexists. split; [unfold Delete; by rewrite Hold|].
  unfold GetByID, GetByEmail. simpl. rewrite !lookup_delete_eq.
  split; [done | split; [done|]].
  intros id' u Hne Hu.
  assert (Email u ≠ Email old) as Hne'.
  { intros Heq. apply Hfwd in Hu. apply Hfwd in Hold. congruence. }
  rewrite !lookup_delete_ne by done.
  by rewrite (Hfwd _ _ Hu), lookup_delete_ne, Hu, Clone_same by done.
Qed.

(** X10. In every such store, after a successful [Update] the new record
    is found by its id and by its e-mail, and when the e-mail changed the
    old one is no longer indexed. *)
Theorem Update_moves_the_index r u old r' :
  reachable r → users r !! ID u = Some old → Update u r = (None, r') →
  GetByID (ID u) r' = Ok u ∧
  GetByEmail (Email u) r' = Returns u ∧
  (Email old ≠ Email u → GetByEmail (Email old) r' = Fails ErrNotFound).
Proof.
  intros Hr Hold Hu. destruct (reachable_is_consistent _ Hr) as [Hfwd Hbwd].
  apply Update_ok_cases in Hu
    as (old' & Hold' & Hus & [[Heq Hes] | (Hne & Hfree & Hes)]);
    assert (old' = old) as -> by congruence;
    unfold GetByID, GetByEmail; rewrite Hus, Hes, lookup_insert_eq, Clone_same.
  - assert (emails r !! Email u = Some (ID u)) as ->
      by (rewrite <- Heq; by apply Hfwd).
    by rewrite lookup_insert_eq, Clone_same.
  - rewrite lookup_insert_eq, lookup_insert_eq, Clone_same.
    split; [done | split; [done|]]. intros _.
    by rewrite lookup_insert_ne, lookup_delete_eq by done.
Qed.

(** X11. The errors each call can return: [Create] only
    [ErrAlreadyExists]; [Delete] and [GetByID] only [ErrNotFound];
    [Update] only [ErrNotFound] or [ErrAlreadyExists]; [CreateUser] never
    [ErrNotFound]. *)
Theorem error_kinds r err :
  (∀ x, fst (Create x r) = Some err → err = ErrAlreadyExists) ∧
  (∀ id, fst (Delete id r) = Some err → err = ErrNotFound) ∧
  (∀ id, GetByID id r = Err err → err = ErrNotFound) ∧
  (∀ x, fst (Update x r) = Some err →
        err = ErrNotFound ∨ err = ErrAlreadyExists) ∧
  (∀ id now name email age,
     fst (CreateUser id now name email age r) = Err err → err ≠ ErrNotFound).
Proof.
  repeat split.
  - intros x. destruct (Create_cases x r) as [-> | [r' ->]]; simpl; congruence.
  - intros id. destruct (Delete_cases id r) as [-> | [r' ->]]; simpl; congruence.
  - intros id. unfold GetByID. destruct (users r !! id); congruence.
  - intros x.
    destruct (Update_cases x r)
      as [[_ ->] | [(? & ? & _ & _ & _ & _ & ->)
         | [(? & _ & _ & ->) | (? & _ & _ & _ & ->)]]];
      simpl; intros [=]; auto.
  - intros id now name email age. unfold CreateUser.
    destruct (NewUser now id name email age) as [user|e] eqn:Hn.
    + destruct (Create_cases user r) as [-> | [r' ->]]; simpl; congruence.
    + simpl. intros [= ->]. unfold NewUser in Hn.
      destruct (Validate _) as [u' [e|]] eqn:Hv; [|discriminate].
      injection Hn as ->. unfold Validate in Hv.
      repeat case_match; congruence.
Qed.
End RepositoryExtras.

Section Emptying.
Implicit Types (r : InMemoryUserRepository) (u : User) (id : string).

Lemma Delete_users id r : users (snd (Delete id r)) = delete id (users r).
Proof.
  unfold Delete. destruct (users r !! id) eqn:Hid; simpl; [done|].
  by rewrite delete_id.
Qed.

Lemma deleteEach_absent ids r id :
  users r !! id = None → users (deleteEach ids r) !! id = None.
Proof.
  revert r. induction ids as [|i ids IH]; intros r Hno; [done|].
  simpl. apply IH. rewrite Delete_users, lookup_delete. by case_decide.
Qed.

Lemma deleteEach_member ids r id :
  id ∈ ids → users (deleteEach ids r) !! id = None.
Proof.
  revert r. induction ids as [|i ids IH]; intros r Hin; [by apply elem_of_nil in Hin|].
  simpl. apply elem_of_cons in Hin as [-> | Hin]; [|by apply IH].
  apply deleteEach_absent. by rewrite Delete_users, lookup_delete_eq.
Qed.

Lemma deleteEach_consistent ids r : consistent r → consistent (deleteEach ids r).
Proof.
  revert r. induction ids as [|i ids IH]; intros r Hc; [done|].
  simpl. by apply IH, consistent_Delete.
Qed.

(** On the new repository every lookup, update and delete returns
    [ErrNotFound], [GetAll] returns the empty list and [Count] is 0. *)
Theorem new_repository_is_empty :
  (∀ id, GetByID id NewInMemoryUserRepository = Err ErrNotFound) ∧
  (∀ email, GetByEmail email NewInMemoryUserRepository = Fails ErrNotFound) ∧
  (∀ u, Update u NewInMemoryUserRepository
        = (Some ErrNotFound, NewInMemoryUserRepository)) ∧
  (∀ id, Delete id NewInMemoryUserRepository
         = (Some ErrNotFound, NewInMemoryUserRepository)) ∧
  GetAll NewInMemoryUserRepository = Ok [] ∧
  Count NewInMemoryUserRepository = 0.
Proof.
  unfold GetByID, GetByEmail, Update, Delete, GetAll, Count. simpl.
  repeat split; intros; by rewrite ?lookup_empty, ?map_to_list_empty.
Qed.

(** X22. In every store that calls of the repository build from the
    empty one, deleting each id of a list that covers the ids present
    (ids that are absent or repeated do no harm) leaves the new, empty
    repository: no record and no index entry survives. *)
Theorem deleting_every_id_empties_the_store r ids :
  reachable r →
  (∀ id, is_Some (users r !! id) → id ∈ ids) →
  deleteEach ids r = NewInMemoryUserRepository.
Proof.
  intros Hr Hcover.
  pose proof (deleteEach_consistent ids r (reachable_is_consistent _ Hr))
    as [_ Hbwd].
  assert (users (deleteEach ids r) = ∅) as Husers.
  { apply map_eq. intros id. rewrite lookup_empty.
    destruct (users r !! id) as [u|] eqn:Hu.
    - apply deleteEach_member, Hcover. eauto.
    - by apply deleteEach_absent. }
  apply repo_eq; simpl; [done|].
  apply map_eq. intros e. rewrite lookup_empty.
  destruct (emails (deleteEach ids r) !! e) as [id|] eqn:Hidx; [|done].
  destruct (Hbwd _ _ Hidx) as (u & Hu & _).
  by rewrite Husers, lookup_empty in Hu.
Qed.
End Emptying.

(** ** The e-mails that [Validate] lets through *)

Section Emails.
Import utf8 regexp.

Lemma Matches_Star_class cls w :
  Matches (Star (CharClass cls)) w ↔ Forall (λ c, cls c = true) w.
Proof.
  split.
  - intros Hm. remember (Star (CharClass cls)) as re eqn:Hre.
    induction Hm as [| | | | | |r w1 w2 H1 _ H2 IH2]; try discriminate.
    + constructor.
    + injection Hre as ->. apply Matches_Class_inv in H1 as (c & -> & Hc).
      constructor; [done | by apply IH2].
  - induction 1 as [|c w Hc _ IH]; [constructor|].
    apply (MStarApp _ [c] w); [by constructor | done].
Qed.

Lemma Matches_Plus_class cls w :
  Matches (Plus (CharClass cls)) w ↔ w ≠ [] ∧ Forall (λ c, cls c = true) w.
Proof.
  unfold Plus. split.
  - intros (w1 & w2 & -> & (c & -> & Hc)%Matches_Class_inv
            & Hs%Matches_Star_class)%Matches_Concat_inv.
    split; [done | by constructor].
  - intros [Hne Hall]. destruct w as [|c w]; [done|]. inversion Hall; subst.
    apply (MConcat _ _ [c] w); [by constructor | by apply Matches_Star_class].
Qed.

Lemma Matches_two_or_more_class cls w :
  Matches (Repeat 2 None (CharClass cls)) w ↔
  (2 ≤ length w)%nat ∧ Forall (λ c, cls c = true) w.
Proof.
  unfold Repeat. cbn [copies]. split.
  - intros (w12 & w3 & -> & H12 & Hs%Matches_Star_class)%Matches_Concat_inv.
    apply Matches_Concat_inv in H12
      as (w1 & w2' & -> & (c1 & -> & Hc1)%Matches_Class_inv & H2).
    apply Matches_Concat_inv in H2
      as (w2 & w0 & -> & (c2 & -> & Hc2)%Matches_Class_inv
          & ->%Matches_Empty_inv).
    simpl. split; [lia | by repeat constructor].
  - intros [Hlen Hall]. destruct w as [|c1 [|c2 w]]; simpl in Hlen; try lia.
    inversion Hall as [|? ? Hc1 Hall']; subst.
    inversion Hall' as [|? ? Hc2 Hall'']; subst.
    apply (MConcat _ _ [c1; c2] w); [|by apply Matches_Star_class].
    apply (MConcat _ _ [c1] [c2]); [by constructor|].
    apply (MConcat _ _ [c2] []); [by constructor | constructor].
Qed.

Lemma Matches_Literal_inv c w : Matches (Literal c) w → w = [val c].
Proof.
  intros (r & -> & Hr)%Matches_Class_inv. apply Z.eqb_eq in Hr. by subst.
Qed.

Lemma Matches_Literal c : Matches (Literal c) [val c].
Proof. constructor. apply Z.eqb_refl. Qed.

(** The language of [emailRegex], on runes. *)
Lemma emailRegex_Matches w :
  Matches emailRegex w ↔
  ∃ loc dom tld, w = loc ++ val "@" :: dom ++ val "." :: tld ∧
    loc ≠ [] ∧ Forall (λ c, localChar c = true) loc ∧
    dom ≠ [] ∧ Forall (λ c, domainChar c = true) dom ∧
    (2 ≤ length tld)%nat ∧ Forall (λ c, tldChar c = true) tld.
Proof.
  unfold emailRegex. split.
  - intros (loc & w1 & -> & [Hl Hlall]%Matches_Plus_class & Hm)%Matches_Concat_inv.
    apply Matches_Concat_inv in Hm as (at_ & w2 & -> & ->%Matches_Literal_inv & Hm).
    apply Matches_Concat_inv in Hm
      as (dom & w3 & -> & [Hd Hdall]%Matches_Plus_class & Hm).
    apply Matches_Concat_inv in Hm as (dot & tld & -> & ->%Matches_Literal_inv & Hm).
    apply Matches_two_or_more_class in Hm as [Ht Htall].
    exists loc, dom, tld. done.
  - intros (loc & dom & tld & -> & Hl & Hlall & Hd & Hdall & Ht & Htall).
    apply MConcat; [by apply Matches_Plus_class|].
    apply (MConcat _ _ [val "@"]); [apply Matches_Literal|].
    apply MConcat; [by apply Matches_Plus_class|].
    apply (MConcat _ _ [val "."]); [apply Matches_Literal|].
    by apply Matches_two_or_more_class.
Qed.

Ltac class_ranges :=
  unfold localChar, domainChar, tldChar, letter, range, one,
    local_char, domain_char, ascii_letter, ascii_digit;
  change (val "A") with 65; change (val "Z") with 90;
  change (val "a") with 97; change (val "z") with 122;
  change (val "0") with 48; change (val "9") with 57;
  change (val ".") with 46; change (val "_") with 95;
  change (val "%") with 37; change (val "+") with 43;
  change (val "-") with 45;
  rewrite ?orb_true_iff, ?andb_true_iff, ?Z.leb_le, ?Z.eqb_eq.

Lemma val_eq c n (d : ascii) : val d = n → val c = n ↔ c = d.
Proof.
  intros <-. split; [apply val_inj | by intros ->].
Qed.

Lemma localChar_val c : localChar (val c) = true ↔ local_char c.
Proof.
  class_ranges.
  rewrite (val_eq c 46 "."), (val_eq c 95 "_"), (val_eq c 37 "%"),
    (val_eq c 43 "+"), (val_eq c 45 "-") by done.
  tauto.
Qed.

Lemma domainChar_val c : domainChar (val c) = true ↔ domain_char c.
Proof.
  class_ranges. rewrite (val_eq c 46 "."), (val_eq c 45 "-") by done. tauto.
Qed.

Lemma tldChar_val c : tldChar (val c) = true ↔ ascii_letter c.
Proof. class_ranges. tauto. Qed.

Lemma localChar_ascii r : localChar r = true → r < RuneSelf.
Proof. class_ranges. unfold RuneSelf. lia. Qed.

Lemma domainChar_ascii r : domainChar r = true → r < RuneSelf.
Proof. class_ranges. unfold RuneSelf. lia. Qed.

Lemma tldChar_ascii r : tldChar r = true → r < RuneSelf.
Proof. class_ranges. unfold RuneSelf. lia. Qed.

(** A string whose runes are all ASCII has its bytes as runes. *)
Lemma runes_all_ascii s :
  Forall (λ r, r < RuneSelf) (runes_at 0 s) → runes_at 0 s = map val s.
Proof. intros Hs. by apply runes_at_ascii, runes_at_small. Qed.

Lemma Forall_val (P : Z → Prop) (Q : ascii → Prop) l :
  (∀ c, P (val c) ↔ Q c) → Forall P (map val l) ↔ Forall Q l.
Proof.
  intros HPQ. rewrite Forall_map. apply Forall_iff. intros c. apply HPQ.
Qed.

(** The language of [emailRegex], on the bytes of a string. *)
Lemma MatchString_emailRegex t :
  MatchString emailRegex t = true ↔ email_shape t.
Proof.
  unfold MatchString, runes, email_shape.
  rewrite matchRunes_Matches, emailRegex_Matches.
  set (s := list_ascii_of_string t). clearbody s. split.
  - intros (loc & dom & tld & Hw & Hl & Hlall & Hd & Hdall & Ht & Htall).
    assert (Forall (λ r, r < RuneSelf) (runes_at 0 s)) as Hsmall.
    { rewrite Hw. apply Forall_app. split.
      { eapply Forall_impl; [done|]. apply localChar_ascii. }
      constructor; [done|]. apply Forall_app. split.
      { eapply Forall_impl; [done|]. apply domainChar_ascii. }
      constructor; [done|]. eapply Forall_impl; [done|]. apply tldChar_ascii. }
    rewrite (runes_all_ascii _ Hsmall) in Hw.
    apply map_eq_app in Hw as (loc' & s1 & -> & <- & Hw).
    destruct s1 as [|at_ s2]; [done|]. injection Hw as Hat Hw.
    apply (val_eq _ _ "@"%char eq_refl) in Hat as ->.
    apply map_eq_app in Hw as (dom' & s3 & -> & <- & Hw).
    destruct s3 as [|dot tld']; [done|]. injection Hw as Hdot <-.
    apply (val_eq _ _ "."%char eq_refl) in Hdot as ->.
    exists loc', dom', tld'. rewrite length_map in Ht.
    apply (Forall_val _ local_char _ localChar_val) in Hlall.
    apply (Forall_val _ domain_char _ domainChar_val) in Hdall.
    apply (Forall_val _ ascii_letter _ tldChar_val) in Htall.
    repeat split; try done; by intros ->.
  - intros (loc & dom & tld & -> & Hl & Hlall & Hd & Hdall & Ht & Htall).
    apply (Forall_val (λ r, localChar r = true) _ _ localChar_val) in Hlall.
    apply (Forall_val (λ r, domainChar r = true) _ _ domainChar_val) in Hdall.
    apply (Forall_val (λ r, tldChar r = true) _ _ tldChar_val) in Htall.
    assert (map val (loc ++ "@"%char :: dom ++ "."%char :: tld) =
            map val loc ++ val "@" :: map val dom ++ val "." :: map val tld)
      as Hw by (rewrite map_app; simpl; by rewrite map_app).
    rewrite runes_at_ascii.
    + rewrite Hw. exists (map val loc), (map val dom), (map val tld).
      rewrite length_map.
      repeat split; try done; by intros ?%map_eq_nil.
    + apply (Forall_map val (λ r, r < RuneSelf)). rewrite Hw.
      apply Forall_app. split.
      { eapply Forall_impl; [done|]. apply localChar_ascii. }
      constructor; [done|]. apply Forall_app. split.
      { eapply Forall_impl; [done|]. apply domainChar_ascii. }
      constructor; [done|]. eapply Forall_impl; [done|]. apply tldChar_ascii.
Qed.
End Emails.

(** ** The whole of [Validate], and what the service stores *)

Section ValidateMore.
Context `{unicode.CaseRanges}.
Implicit Types (r : InMemoryUserRepository) (u : User) (id : string).

(** The four ways [Validate] can end, with the receiver it leaves. *)
Lemma Validate_result u :
  let name := gostrings.TrimSpace (Name u) in
  let email := gostrings.TrimSpace (gostrings.ToLower (Email u)) in
  (¬ name_shape name ∧
   Validate u = ({| ID := ID u; Name := name; Email := Email u; Age := Age u;
                    CreatedAt := CreatedAt u; UpdatedAt := UpdatedAt u |},
                 Some ErrInvalidUserName)) ∨
  (name_shape name ∧ ¬ email_shape email ∧
   Validate u = ({| ID := ID u; Name := name; Email := email; Age := Age u;
                    CreatedAt := CreatedAt u; UpdatedAt := UpdatedAt u |},
                 Some ErrInvalidUserEmail)) ∨
  (name_shape name ∧ email_shape email ∧ ¬ 1 <= Age u <= 150 ∧
   Validate u = ({| ID := ID u; Name := name; Email := email; Age := Age u;
                    CreatedAt := CreatedAt u; UpdatedAt := UpdatedAt u |},
                 Some ErrInvalidUserAge)) ∨
  (name_shape name ∧ email_shape email ∧ 1 <= Age u <= 150 ∧
   Validate u = ({| ID := ID u; Name := name; Email := email; Age := Age u;
                    CreatedAt := CreatedAt u; UpdatedAt := UpdatedAt u |},
                 None)).
Proof.
  intros name email. unfold Validate.
  cbn [ID Name Email Age CreatedAt UpdatedAt]. fold name email.
  destruct (_ || _) eqn:Hlen.
  { left. split; [|done]. intros [Hl _]%name_checks. congruence. }
  destruct (regexp.MatchString nameRegex name) eqn:Hn; cbn [negb].
  2: { left. split; [|done]. intros [_ Hm]%name_checks. congruence. }
  assert (name_shape name) as Hname by (by apply name_checks).
  right. destruct (regexp.MatchString emailRegex email) eqn:He; cbn [negb].
  2: { left. split; [done|]. split; [|done].
       intros Hm%MatchString_emailRegex. congruence. }
  apply MatchString_emailRegex in He. right.
  destruct ((Age u <? 1) || (150 <? Age u)) eqn:Hage.
  - left. split; [done|]. split; [done|]. split; [|done].
    apply orb_true_iff in Hage as [?%Z.ltb_lt | ?%Z.ltb_lt]; lia.
  - right. apply orb_false_iff in Hage as [?%Z.ltb_ge ?%Z.ltb_ge].
    split; [done|]. split; [done|]. split; [lia | done].
Qed.

(** A record that [Validate] accepts comes back valid. *)
Lemma Validate_ok_valid u u' :
  Validate u = (u', None) →
  valid_record u' ∧ ID u' = ID u ∧
  CreatedAt u' = CreatedAt u ∧ UpdatedAt u' = UpdatedAt u.
Proof.
  intros Hv.
  destruct (Validate_result u)
    as [[_ Hr] | [(_ & _ & Hr) | [(_ & _ & _ & Hr) | (Hn & He & Ha & Hr)]]];
    rewrite Hr in Hv; try discriminate.
  injection Hv as <-. unfold valid_record. simpl. tauto.
Qed.

(** Every call of the service is a call of the repository or changes
    nothing. *)
Lemma serve_exec now c r : serve now c r = r ∨ ∃ o, serve now c r = exec o r.
Proof.
  destruct c as [id name email age| | | |id name email age|id|]; simpl; auto.
  - unfold CreateUser. destruct (NewUser _ _ _ _ _) as [user|err]; [|by left].
    right. exists (OpCreate user). simpl. by destruct (Create user r) as [[?|] ?].
  - unfold UpdateUser. destruct (GetByID id r) as [old|err]; [|by left].
    destruct (Validate _) as [u' [err|]]; [by left|].
    right. exists (OpUpdate u'). simpl. by destruct (Update u' r) as [[?|] ?].
  - right. by exists (OpDelete id).
Qed.

Lemma served_reachable t r : served t r → reachable r.
Proof.
  induction 1 as [t | t now c r _ IH Hle]; [constructor|].
  destruct (serve_exec now c r) as [-> | [o ->]]; [done | by constructor].
Qed.

Lemma valid_store_mono t t' r : t <= t' → valid_store t r → valid_store t' r.
Proof.
  intros Ht Hs id u Hu. destruct (Hs _ _ Hu) as (? & ? & ?).
  split; [done|]. split; [done|]. lia.
Qed.

Lemma valid_store_serve now c r : valid_store now r → valid_store now (serve now c r).
Proof.
  intros Hs. destruct c as [id name email age| | | |id name email age|id|];
    simpl; try done.
  - destruct (CreateUser id now name email age r) as [[u|err] r'] eqn:Hc.
    + apply CreateUser_ok in Hc as [Hn Hc]. unfold NewUser in Hn.
      destruct (Validate _) as [u' [err|]] eqn:Hv; [discriminate|].
      injection Hn as ->. apply Validate_ok_valid in Hv as (Hv & Hid & Hcr & Hup).
      simpl in *. apply Create_ok in Hc as (_ & _ & ->). unfold valid_store. simpl.
      intros id' u'. rewrite lookup_insert. case_decide as Hk.
      * intros [= <-]. split; [congruence|]. split; [done|]. lia.
      * apply Hs.
    + by apply CreateUser_error in Hc as ->.
  - destruct (UpdateUser now id name email age r) as [[u|err] r'] eqn:Hu.
    + apply UpdateUser_ok in Hu as (old & Hold & Hv & Hu).
      apply Validate_ok_valid in Hv as (Hv & Hid & Hcr & Hup). simpl in *.
      destruct (Hs _ _ Hold) as (_ & _ & Hto).
      apply Update_ok_users in Hu. unfold valid_store. simpl. rewrite Hu.
      intros id' u'. rewrite lookup_insert. case_decide as Hk.
      * intros [= <-]. split; [congruence|]. split; [done|]. lia.
      * apply Hs.
    + by apply UpdateUser_error in Hu as ->.
  - unfold DeleteUser. destruct (Delete_cases id r) as [-> | [r' Hd]]; [done|].
    rewrite Hd. apply Delete_ok in Hd as (old & _ & ->). unfold valid_store. simpl.
    intros id' u'. rewrite lookup_delete. case_decide; [done | apply Hs].
Qed.

Lemma served_valid_store t r : served t r → valid_store t r.
Proof.
  induction 1 as [t | t now c r _ IH Hle].
  - intros id u. simpl. by rewrite lookup_empty.
  - apply valid_store_serve. by apply (valid_store_mono t).
Qed.

(** X12. [Validate] returns [ErrInvalidUserEmail] exactly when the
    trimmed name is well shaped and the normalized e-mail (lower-cased,
    then trimmed) is not of the shape local@domain.tld: a non-empty local
    part of letters, digits and [._%+-], a non-empty domain of letters,
    digits, dots and hyphens, a dot, and two or more letters. *)
Theorem Validate_email_shape u :
  snd (Validate u) = Some ErrInvalidUserEmail ↔
  name_shape (gostrings.TrimSpace (Name u)) ∧
  ¬ email_shape (gostrings.TrimSpace (gostrings.ToLower (Email u))).
Proof.
  destruct (Validate_result u)
    as [[Hn Hr] | [(Hn & He & Hr) | [(Hn & He & Ha & Hr) | (Hn & He & Ha & Hr)]]];
    rewrite Hr; simpl; split; try done; try (intros []; done).
Qed.

(** X13. [Validate] accepts a record exactly when the trimmed name and
    the normalized e-mail are well shaped and the age lies in 1..150; it
    returns [ErrInvalidUserAge] exactly when both shapes are right and the
    age lies outside.  The name is judged first, then the e-mail, then
    the age. *)
Theorem Validate_accepts u :
  let name := gostrings.TrimSpace (Name u) in
  let email := gostrings.TrimSpace (gostrings.ToLower (Email u)) in
  (snd (Validate u) = None ↔
   name_shape name ∧ email_shape email ∧ 1 <= Age u <= 150) ∧
  (snd (Validate u) = Some ErrInvalidUserAge ↔
   name_shape name ∧ email_shape email ∧ ¬ 1 <= Age u <= 150).
Proof.
  intros name email.
  destruct (Validate_result u)
    as [[Hn Hr] | [(Hn & He & Hr) | [(Hn & He & Ha & Hr) | (Hn & He & Ha & Hr)]]];
    rewrite Hr; simpl; fold name email in Hn |- *;
    (split; split; try done; try (intros (? & ? & ?); done)).
Qed.

(** X14. What [Validate] writes into its receiver: the name is always
    replaced by the trimmed name; the e-mail is replaced by the normalized
    e-mail unless the name is rejected, in which case it is left as given;
    id, age and both timestamps are never touched. *)
Theorem Validate_receiver u :
  let u' := fst (Validate u) in
  ID u' = ID u ∧ Age u' = Age u ∧
  CreatedAt u' = CreatedAt u ∧ UpdatedAt u' = UpdatedAt u ∧
  Name u' = gostrings.TrimSpace (Name u) ∧
  (snd (Validate u) = Some ErrInvalidUserName → Email u' = Email u) ∧
  (snd (Validate u) ≠ Some ErrInvalidUserName →
   Email u' = gostrings.TrimSpace (gostrings.ToLower (Email u))).
Proof.
  destruct (Validate_result u)
    as [[Hn Hr] | [(Hn & He & Hr) | [(Hn & He & Ha & Hr) | (Hn & He & Ha & Hr)]]];
    rewrite Hr; simpl; repeat split; done.
Qed.

(** X15. Every store that calls of the service build from the empty one
    is a store that calls of the repository build: its two maps agree,
    and [GetUserByEmail] never reads through nil on it. *)
Theorem served_store_is_consistent t r email :
  served t r →
  reachable r ∧ consistent r ∧ GetUserByEmail email r ≠ Panics.
Proof.
  intros Hr%served_reachable. split; [done|].
  pose proof (reachable_is_consistent _ Hr) as Hc. split; [done|].
  destruct Hc as [_ Hbwd]. unfold GetUserByEmail, GetByEmail.
  destruct (emails r !! email) as [id|] eqn:Hidx; [|done].
  by destruct (Hbwd _ _ Hidx) as (u & -> & _).
Qed.

(** X16. Under a clock that never runs backwards, every record in a
    store built by calls of the service is one that validation accepts
    (a well-shaped name and e-mail, an age in 1..150), sits under its own
    id, and was created no later than it was last written. *)
Theorem served_records_are_valid t r id u :
  served t r → users r !! id = Some u →
  ID u = id ∧ name_shape (Name u) ∧ email_shape (Email u) ∧
  1 <= Age u <= 150 ∧ CreatedAt u <= UpdatedAt u <= t.
Proof.
  intros Hs%served_valid_store Hu.
  destruct (Hs _ _ Hu) as (Hid & (Hn & He & Ha) & Ht). done.
Qed.
End ValidateMore.

(** ** Normal forms are fixed points *)

Section FixedPoints.
Import utf8 gostrings.

Lemma val_byte x : 0 <= x < 256 → val (byte x) = x.
Proof.
  intros Hx. unfold val, byte.
  change 0xFF with (Z.ones 8). rewrite Z.land_ones by lia.
  rewrite Z.mod_small by (simpl; lia).
  rewrite N_ascii_embedding by lia. lia.
Qed.

Lemma val_byte_high t y :
  0x80 <= t < 256 → 0 <= y → 0x80 <= val (byte (Z.lor t y)).
Proof.
  intros Ht Hy. unfold val, byte.
  assert (0 <= Z.land (Z.lor t y) 0xFF < 256) as Hr.
  { change 0xFF with (Z.ones 8). rewrite Z.land_ones by lia.
    apply Z.mod_pos_bound. simpl. lia. }
  rewrite N_ascii_embedding by lia. rewrite Z2N.id by lia.
  rewrite Z.land_lor_distr_l.
  assert (Z.land t 0xFF = t) as ->.
  { change 0xFF with (Z.ones 8). rewrite Z.land_ones by lia.
    apply Z.mod_small. simpl. lia. }
  etrans; [|apply lor_lower; [lia | apply Z.land_nonneg; lia]]. lia.
Qed.

Lemma EncodeRune_not_capital r :
  0 <= r → ¬ 65 <= r <= 90 → Forall not_capital (EncodeRune r).
Proof.
  intros Hr Hcap.
  assert (Hhigh : ∀ t y, 0x80 <= t < 256 → 0 <= y →
                         not_capital (byte (Z.lor t y))).
  { intros t y Ht Hy. pose proof (val_byte_high t y Ht Hy).
    unfold not_capital. lia. }
  assert (Hsh : ∀ x k, 0 <= x → 0 <= Z.shiftr x k)
    by (intros; by apply Z.shiftr_nonneg).
  assert (Hland : ∀ x, 0 <= Z.land x maskx)
    by (intros; apply Z.land_nonneg; right; done).
  unfold EncodeRune, encode3, rune1Max, rune2Max, rune3Max, tx, t2, t3, t4.
  repeat case_match; repeat constructor; try (apply Hhigh; [lia | auto]).
  - unfold not_capital. rewrite val_byte; [done|].
    match goal with Hc : (r <=? _) = true |- _ => apply Z.leb_le in Hc end. lia.
  - apply Hsh. unfold RuneError. lia.
Qed.

Lemma Map_at_not_capital mapping skip s :
  (∀ c, 0 <= mapping c → ¬ 65 <= mapping c <= 90) →
  Forall not_capital (Map_at mapping skip s).
Proof.
  intros Hm. revert skip. induction s as [|c s IH]; intros skip; [constructor|].
  cbn [Map_at]. destruct skip as [|k]; [|apply IH].
  destruct (DecodeRuneInString (c :: s)) as [r w].
  apply Forall_app. split; [|apply IH].
  destruct (0 <=? mapping r) eqn:Hr; [|constructor].
  apply Z.leb_le in Hr. by apply EncodeRune_not_capital; [|apply Hm].
Qed.

Lemma lowerByte_not_capital c : not_capital (lowerByte c).
Proof.
  unfold lowerByte, not_capital.
  destruct ((65 <=? val c) && (val c <=? 90)) eqn:Hc.
  - apply andb_true_iff in Hc as [?%Z.leb_le ?%Z.leb_le].
    rewrite val_byte; lia.
  - apply andb_false_iff in Hc as [?%Z.leb_gt | ?%Z.leb_gt]; lia.
Qed.

Lemma lowerByte_fixed c : not_capital c → lowerByte c = c.
Proof.
  unfold lowerByte, not_capital. intros Hc.
  destruct ((65 <=? val c) && (val c <=? 90)) eqn:Hb; [|done].
  apply andb_true_iff in Hb as [?%Z.leb_le ?%Z.leb_le]. lia.
Qed.

Section Tables.
Context `{unicode.CaseRanges}.
Hypothesis no_capital_image :
  ∀ r, unicode.MaxASCII < r → ¬ 65 <= unicode.To_LowerCase r <= 90.

Lemma unicode_ToLower_not_capital r : ¬ 65 <= unicode.ToLower r <= 90.
Proof.
  unfold unicode.ToLower. destruct (r <=? unicode.MaxASCII) eqn:Hr.
  - destruct ((65 <=? r) && (r <=? 90)) eqn:Hc.
    + apply andb_true_iff in Hc as [?%Z.leb_le ?%Z.leb_le]. lia.
    + apply andb_false_iff in Hc as [?%Z.leb_gt | ?%Z.leb_gt]; lia.
  - apply no_capital_image. by apply Z.leb_gt.
Qed.

Lemma ToLower_bytes_not_capital s : Forall not_capital (ToLower_bytes s).
Proof.
  unfold ToLower_bytes. destruct (isASCII s).
  - apply Forall_map, Forall_forall. intros c _. apply lowerByte_not_capital.
  - apply Map_at_not_capital. intros c _. apply unicode_ToLower_not_capital.
Qed.
End Tables.

(** Trimming keeps bytes of the string and adds none. *)
Lemma TrimRightFunc_Forall (P : ascii → Prop) s f :
  Forall P s → Forall P (TrimRightFunc s f).
Proof. intros. unfold TrimRightFunc. by apply Forall_take. Qed.

Lemma TrimFunc_Forall (P : ascii → Prop) s f :
  Forall P s → Forall P (TrimFunc s f).
Proof.
  intros Hs. unfold TrimFunc. apply TrimRightFunc_Forall. unfold TrimLeftFunc.
  case_match; [constructor | by apply Forall_drop].
Qed.

Lemma trimSpaceRight_Forall (P : ascii → Prop) s stop :
  Forall P s → Forall P (trimSpaceRight s stop).
Proof.
  intros Hs. induction stop as [|stop IH]; simpl; [constructor|].
  repeat case_match; try done; try by apply Forall_take.
  by apply TrimRightFunc_Forall, Forall_take.
Qed.

Lemma TrimSpace_bytes_Forall (P : ascii → Prop) s :
  Forall P s → Forall P (TrimSpace_bytes s).
Proof.
  induction 1 as [|c s Hc Hs IH]; [constructor|]. cbn [TrimSpace_bytes].
  repeat case_match; [|done|].
  - apply TrimFunc_Forall. by constructor.
  - apply trimSpaceRight_Forall. by constructor.
Qed.

(** A string that begins and ends with ASCII bytes other than space is
    its own trimming. *)
Lemma TrimSpace_bytes_fixed s a z :
  head s = Some a → last s = Some z →
  val a < RuneSelf → asciiSpace (val a) = false →
  val z < RuneSelf → asciiSpace (val z) = false →
  TrimSpace_bytes s = s.
Proof.
  intros Ha Hz Ha1 Ha2 Hz1 Hz2. destruct s as [|c t]; [done|].
  injection Ha as ->. cbn [TrimSpace_bytes].
  destruct (RuneSelf <=? val a) eqn:E; [apply Z.leb_le in E; lia|].
  rewrite Ha2. rewrite last_lookup in Hz.
  remember (a :: t) as s eqn:Hs.
  assert (length s = S (pred (length s))) as Hlen by (subst s; simpl; lia).
  rewrite Hlen. cbn [trimSpaceRight]. rewrite Hz.
  destruct (RuneSelf <=? val z) eqn:E'; [apply Z.leb_le in E'; lia|].
  rewrite Hz2, <- Hlen. apply take_ge. lia.
Qed.

Lemma TrimSpace_fixed t a z :
  head (list_ascii_of_string t) = Some a →
  last (list_ascii_of_string t) = Some z →
  val a < RuneSelf → asciiSpace (val a) = false →
  val z < RuneSelf → asciiSpace (val z) = false →
  TrimSpace t = t.
Proof.
  intros. unfold TrimSpace. rewrite (TrimSpace_bytes_fixed _ a z) by done.
  apply string_of_list_ascii_of_string.
Qed.
End FixedPoints.

Section Idempotence.
Import utf8 gostrings.

Lemma ascii_letter_plain c :
  ascii_letter c → val c < RuneSelf ∧ asciiSpace (val c) = false.
Proof.
  unfold ascii_letter, RuneSelf, asciiSpace. intros Hc. split; [lia|].
  apply orb_false_iff. split; [apply andb_false_iff|apply Z.eqb_neq; lia].
  right. apply Z.leb_gt. lia.
Qed.

Lemma local_char_plain c :
  local_char c → val c < RuneSelf ∧ asciiSpace (val c) = false.
Proof.
  intros [Hc | [Hc | Hc]]; [by apply ascii_letter_plain | |].
  - unfold ascii_digit, RuneSelf, asciiSpace in *. split; [lia|].
    apply orb_false_iff. split; [apply andb_false_iff|apply Z.eqb_neq; lia].
    right. apply Z.leb_gt. lia.
  - destruct Hc as [-> | [-> | [-> | [-> | ->]]]]; by vm_compute.
Qed.

Lemma domain_char_ascii c : domain_char c → val c < RuneSelf.
Proof.
  intros [Hc | [Hc | [-> | ->]]]; try done.
  - by apply ascii_letter_plain.
  - unfold ascii_digit, RuneSelf in *. lia.
Qed.

Lemma name_shape_trimmed t : name_shape t → TrimSpace t = t.
Proof.
  intros (_ & a & mid & z & Ht & Ha & Hz & _).
  destruct (ascii_letter_plain a Ha), (ascii_letter_plain z Hz).
  apply (TrimSpace_fixed t a z); try done; rewrite Ht; [done|].
  by rewrite app_comm_cons, last_snoc.
Qed.

Lemma email_shape_trimmed t : email_shape t → TrimSpace t = t.
Proof.
  intros (loc & dom & tld & Ht & Hl & Hlall & _ & _ & Hlen & Htall).
  destruct loc as [|a loc]; [done|].
  destruct (exists_last (l := tld)) as (tld' & z & ->).
  { intros ->. simpl in Hlen. lia. }
  inversion Hlall; subst. apply Forall_app in Htall as [_ Hz].
  inversion Hz; subst.
  destruct (local_char_plain a), (ascii_letter_plain z); try done.
  apply (TrimSpace_fixed t a z); try done; rewrite Ht; [done|].
  assert ((a :: loc) ++ "@"%char :: dom ++ "."%char :: tld' ++ [z] =
          ((a :: loc) ++ "@"%char :: dom ++ "."%char :: tld') ++ [z]) as ->.
  { rewrite <- !app_assoc. simpl. rewrite <- app_assoc. done. }
  apply last_snoc.
Qed.

Lemma email_shape_ascii t :
  email_shape t → isASCII (list_ascii_of_string t) = true.
Proof.
  intros (loc & dom & tld & -> & _ & Hlall & _ & Hdall & _ & Htall).
  unfold isASCII. apply forallb_forall. intros c Hin. apply Z.ltb_lt.
  apply in_app_or in Hin as [Hin | [<- | Hin]]; [| done |].
  { rewrite Forall_forall in Hlall. apply local_char_plain, Hlall.
    by apply list_elem_of_In. }
  apply in_app_or in Hin as [Hin | [<- | Hin]]; [| done |].
  { rewrite Forall_forall in Hdall. apply domain_char_ascii, Hdall.
    by apply list_elem_of_In. }
  rewrite Forall_forall in Htall. apply ascii_letter_plain, Htall.
  by apply list_elem_of_In.
Qed.

Section Tables.
Context `{unicode.CaseRanges}.
Hypothesis no_capital_image :
  ∀ r, unicode.MaxASCII < r → ¬ 65 <= unicode.To_LowerCase r <= 90.

Lemma normalized_not_capital e :
  Forall not_capital (list_ascii_of_string (TrimSpace (ToLower e))).
Proof.
  unfold TrimSpace, ToLower. rewrite !list_ascii_of_string_of_list_ascii.
  apply TrimSpace_bytes_Forall. by apply ToLower_bytes_not_capital.
Qed.

(** A normalized e-mail of the right shape is its own normal form. *)
Lemma normalized_fixed e :
  email_shape (TrimSpace (ToLower e)) →
  TrimSpace (ToLower (TrimSpace (ToLower e))) = TrimSpace (ToLower e).
Proof.
  intros Hs. pose proof (normalized_not_capital e) as Hcap.
  set (e' := TrimSpace (ToLower e)) in *.
  assert (ToLower e' = e') as ->; [|by apply email_shape_trimmed].
  unfold ToLower, ToLower_bytes. rewrite (email_shape_ascii _ Hs).
  rewrite <- (string_of_list_ascii_of_string e') at 2. f_equal.
  rewrite <- (map_id (list_ascii_of_string e')) at 2.
  apply map_ext_Forall. eapply Forall_impl; [done|].
  intros c. apply lowerByte_fixed.
Qed.

(** X17. Given that no rune above ASCII has an ASCII capital as its lower
    case (as in Unicode), validation is idempotent: a record that
    [Validate] has accepted and normalized is accepted again, and comes
    back as it is. *)
Theorem Validate_idempotent u u' :
  Validate u = (u', None) → Validate u' = (u', None).
Proof.
  intros Hv.
  destruct (Validate_result u)
    as [[_ Hr] | [(_ & _ & Hr) | [(_ & _ & _ & Hr) | (Hn & He & Ha & Hr)]]];
    rewrite Hr in Hv; try discriminate.
  injection Hv as <-.
  pose proof (name_shape_trimmed _ Hn) as Hn'.
  pose proof (normalized_fixed _ He) as He'.
  destruct (Validate_result
              {| ID := ID u; Name := TrimSpace (Name u);
                 Email := TrimSpace (ToLower (Email u)); Age := Age u;
                 CreatedAt := CreatedAt u; UpdatedAt := UpdatedAt u |})
    as [[Hx Hr'] | [(_ & Hx & Hr') | [(_ & _ & Hx & Hr') | (_ & _ & _ & Hr')]]];
    cbn [ID Name Email Age CreatedAt UpdatedAt] in *.
  - by rewrite Hn' in Hx.
  - by rewrite He' in Hx.
  - done.
  - by rewrite Hr', Hn', He'.
Qed.
End Tables.
End Idempotence.

Section ServiceMore.
Context `{unicode.CaseRanges}.
Implicit Types (r : InMemoryUserRepository) (u : User) (id : string).

(** A valid request passes [Validate]. *)
Lemma Validate_valid u :
  name_shape (gostrings.TrimSpace (Name u)) →
  email_shape (gostrings.TrimSpace (gostrings.ToLower (Email u))) →
  1 <= Age u <= 150 →
  Validate u =
  ({| ID := ID u; Name := gostrings.TrimSpace (Name u);
      Email := gostrings.TrimSpace (gostrings.ToLower (Email u)); Age := Age u;
      CreatedAt := CreatedAt u; UpdatedAt := UpdatedAt u |}, None).
Proof.
  intros Hn He Ha.
  by destruct (Validate_result u)
    as [[? Hr] | [(_ & ? & Hr) | [(_ & _ & ? & Hr) | (_ & _ & _ & Hr)]]].
Qed.

(** X18. On every store, [UpdateUser] of a user that is present, with
    valid data whose e-mail normalizes to the one the user already has
    (for instance the same address in other letter case), succeeds: the
    record is replaced and the reverse index is left as it is. *)
Theorem UpdateUser_own_email now id name email age r old :
  users r !! id = Some old →
  name_shape (gostrings.TrimSpace name) →
  email_shape (gostrings.TrimSpace (gostrings.ToLower email)) →
  1 <= age <= 150 →
  gostrings.TrimSpace (gostrings.ToLower email) = Email old →
  let u := {| ID := id; Name := gostrings.TrimSpace name; Email := Email old;
              Age := age; CreatedAt := CreatedAt old; UpdatedAt := now |} in
  UpdateUser now id name email age r =
  (Ok u, {| users := <[id := u]> (users r); emails := emails r |}).
Proof.
  intros Hold Hn He Ha Hown u. unfold UpdateUser, GetByID.
  rewrite Hold, Clone_same, Validate_valid by done.
  cbn [ID Name Email Age CreatedAt UpdatedAt]. rewrite Hown. fold u.
  by rewrite (Update_same_email u old r).
Qed.

(** X19. In a store built by calls of the service, an e-mail that one
    user holds cannot be taken by another: [UpdateUser] of another user,
    and [CreateUser] under any id, with valid data whose e-mail normalizes
    to it, return [ErrAlreadyExists] and leave the store as it is. *)
Theorem held_email_cannot_be_taken t r holder owner now name email age :
  served t r → users r !! holder = Some owner →
  name_shape (gostrings.TrimSpace name) →
  email_shape (gostrings.TrimSpace (gostrings.ToLower email)) →
  1 <= age <= 150 →
  gostrings.TrimSpace (gostrings.ToLower email) = Email owner →
  (∀ id, CreateUser id now name email age r = (Err ErrAlreadyExists, r)) ∧
  (∀ id, id ≠ holder → is_Some (users r !! id) →
         UpdateUser now id name email age r = (Err ErrAlreadyExists, r)).
Proof.
  intros Hs Howner Hn He Ha Hheld.
  destruct (reachable_is_consistent _ (served_reachable _ _ Hs)) as [Hfwd Hbwd].
  pose proof (Hfwd _ _ Howner) as Hidx. split.
  - intros id. unfold CreateUser, NewUser. rewrite Validate_valid by done.
    cbn [ID Name Email Age CreatedAt UpdatedAt]. rewrite Hheld.
    match goal with |- context [Create ?x r] =>
      rewrite (proj2 (Create_error x r)); [done | right; simpl; eauto] end.
  - intros id Hne [old Hold]. unfold UpdateUser, GetByID.
    rewrite Hold, Clone_same, Validate_valid by done.
    cbn [ID Name Email Age CreatedAt UpdatedAt]. rewrite Hheld.
    match goal with |- context [Update ?x r] =>
      rewrite (Update_taken x old holder r) end; try done.
    simpl. intros Heq. apply Hfwd in Hold. congruence.
Qed.
End ServiceMore.

(** ** The generators of the tests agree with the validator *)

Section Generators.
Import utf8 gostrings generators.
Context `{unicode.CaseRanges}.

Lemma bytes_app a b :
  list_ascii_of_string (a ++ b) = list_ascii_of_string a ++ list_ascii_of_string b.
Proof.
  induction a as [|c a IH]; [done|].
  change (c :: list_ascii_of_string (a ++ b) =
          c :: (list_ascii_of_string a ++ list_ascii_of_string b)).
  by rewrite IH.
Qed.

Lemma name_ok_shape t : name_ok t = true ↔ name_shape t.
Proof.
  unfold name_ok. rewrite andb_true_iff, negb_true_iff. apply name_checks.
Qed.

Lemma ToLower_plain e :
  forallb plain_byte (list_ascii_of_string e) = true → ToLower e = e.
Proof.
  intros Hp. rewrite forallb_forall in Hp.
  unfold ToLower, ToLower_bytes.
  assert (isASCII (list_ascii_of_string e) = true) as ->.
  { apply forallb_forall. intros c Hc. by apply Hp, andb_true_iff in Hc as [? _]. }
  rewrite <- (string_of_list_ascii_of_string e) at 2. f_equal.
  rewrite <- (map_id (list_ascii_of_string e)) at 2.
  apply map_ext_in. intros c Hc. apply lowerByte_fixed.
  apply Hp, andb_true_iff in Hc as [_ Hc]. apply negb_true_iff in Hc.
  unfold not_capital. apply andb_false_iff in Hc as [?%Z.leb_gt | ?%Z.leb_gt]; lia.
Qed.

Lemma digits_local d :
  Forall (λ c, local_char c ∧ plain_byte c = true)
         (list_ascii_of_string (NilEmpty.string_of_uint d)).
Proof.
  induction d; simpl; constructor; try done;
    (split; [right; left; unfold ascii_digit; by vm_compute | done]).
Qed.

(** The output of [%d] is made of digits and the minus sign. *)
Lemma fmt_d_local n :
  Forall (λ c, local_char c ∧ plain_byte c = true) (list_ascii_of_string (fmt_d n)).
Proof.
  unfold fmt_d, NilZero.string_of_int, NilZero.string_of_uint.
  destruct (Z.to_int n) as [d|d].
  - destruct d; try apply (digits_local (_ _)).
    constructor; [|constructor].
    split; [right; left; unfold ascii_digit; by vm_compute | done].
  - simpl. constructor; [split; [|done]; do 6 right; done|].
    destruct d; try apply (digits_local (_ _)).
    constructor; [|constructor].
    split; [right; left; unfold ascii_digit; by vm_compute | done].
Qed.

Lemma Forall_local_char l :
  forallb (λ c, localChar (val c) && plain_byte c) l = true →
  Forall (λ c, local_char c ∧ plain_byte c = true) l.
Proof.
  rewrite forallb_forall, Forall_forall. intros Hl c Hc%list_elem_of_In.
  apply Hl, andb_true_iff in Hc as [Hc ?]. by apply localChar_val in Hc.
Qed.

Lemma Forall_domain_char l :
  forallb (λ c, domainChar (val c)) l = true → Forall domain_char l.
Proof.
  rewrite forallb_forall, Forall_forall. intros Hl c Hc%list_elem_of_In.
  by apply domainChar_val, Hl.
Qed.

Lemma Forall_ascii_letter l :
  forallb (λ c, letter (val c)) l = true → Forall ascii_letter l.
Proof.
  rewrite forallb_forall, Forall_forall. intros Hl c Hc%list_elem_of_In.
  by apply letter_val, Hl.
Qed.

Ltac members H :=
  repeat (apply elem_of_cons in H as [-> | H]); [.. | by apply elem_of_nil in H].

(** An e-mail that [ValidEmail] draws has the shape that validation
    asks for and is in normal form already. *)
Lemma ValidEmail_normal e :
  drawsValidEmail e →
  email_shape e ∧ TrimSpace (ToLower e) = e.
Proof.
  intros (prefix & ts & rnd & domain & Hp & Hd & ->).
  assert (Hloc : Forall (λ c, local_char c ∧ plain_byte c = true)
            (list_ascii_of_string (prefix ++ fmt_d ts ++ fmt_d rnd))).
  { rewrite !bytes_app. repeat (apply Forall_app; split);
      try apply fmt_d_local.
    members Hp; by apply Forall_local_char. }
  assert (Hdom : ∃ dom tld,
            list_ascii_of_string domain = dom ++ "."%char :: tld ∧
            dom ≠ [] ∧ Forall domain_char dom ∧
            (2 ≤ length tld)%nat ∧ Forall ascii_letter tld ∧
            forallb plain_byte (list_ascii_of_string domain) = true).
  { members Hd;
      [ exists (list_ascii_of_string "example"), (list_ascii_of_string "com")
      | exists (list_ascii_of_string "test"), (list_ascii_of_string "org")
      | exists (list_ascii_of_string "demo"), (list_ascii_of_string "net")
      | exists (list_ascii_of_string "sample"), (list_ascii_of_string "edu")
      | exists (list_ascii_of_string "service"), (list_ascii_of_string "io")
      | exists (list_ascii_of_string "company"), (list_ascii_of_string "co") ];
      (split; [done|]); (split; [done|]);
      (split; [by apply Forall_domain_char|]); (split; [simpl; lia|]);
      (split; [by apply Forall_ascii_letter | done]). }
  destruct Hdom as (dom & tld & Hsplit & Hdne & Hdall & Htlen & Htall & Hplain).
  assert (Hbytes : list_ascii_of_string (ValidEmail prefix ts rnd domain) =
            list_ascii_of_string (prefix ++ fmt_d ts ++ fmt_d rnd)
            ++ "@"%char :: dom ++ "."%char :: tld).
  { unfold ValidEmail. rewrite !bytes_app. simpl. rewrite Hsplit.
    by rewrite <- !app_assoc. }
  assert (Hshape : email_shape (ValidEmail prefix ts rnd domain)).
  { exists (list_ascii_of_string (prefix ++ fmt_d ts ++ fmt_d rnd)), dom, tld.
    split; [done|]. split.
    { rewrite bytes_app. intros [Hnil _]%app_eq_nil. by members Hp. }
    split; [|done]. eapply Forall_impl; [exact Hloc|]. by intros c [? _]. }
  split; [done|].
  rewrite ToLower_plain; [by apply email_shape_trimmed|].
  rewrite Hbytes, <- Hsplit. rewrite forallb_app. apply andb_true_iff. split.
  - apply forallb_forall. rewrite Forall_forall in Hloc.
    intros c Hc%list_elem_of_In. by apply Hloc.
  - simpl. done.
Qed.

Lemma ValidName_shape n : n ∈ ValidName → name_shape n.
Proof.
  intros Hn%list_elem_of_In. apply name_ok_shape.
  assert (forallb name_ok ValidName = true) as Hall by by vm_compute.
  rewrite forallb_forall in Hall. by apply Hall.
Qed.

Lemma InvalidName_shape n : n ∈ InvalidName → ¬ name_shape (TrimSpace n).
Proof.
  intros Hn%list_elem_of_In Hs%name_ok_shape.
  assert (forallb (λ n, negb (name_ok (TrimSpace n))) InvalidName = true)
    as Hall by by vm_compute.
  rewrite forallb_forall in Hall. apply Hall in Hn. by rewrite Hs in Hn.
Qed.

Lemma InvalidEmail_shape e :
  e ∈ InvalidEmail → ¬ email_shape (TrimSpace (ToLower e)).
Proof.
  intros He%list_elem_of_In Hs%MatchString_emailRegex.
  assert (forallb (λ e, negb (regexp.MatchString emailRegex
                                 (TrimSpace (ToLower e)))) InvalidEmail = true)
    as Hall by by vm_compute.
  rewrite forallb_forall in Hall. apply Hall in He. by rewrite Hs in He.
Qed.

(** X20. Whatever [ValidUserStruct] draws is accepted as it stands: the
    name is one that trimming leaves alone, the e-mail (a prefix, two
    integers in decimal, an at sign and a domain) is in normal form, and
    [NewUser] returns the record with exactly the name, e-mail and age
    drawn. *)
Theorem ValidUserStruct_is_accepted d now id :
  ValidUserStruct d →
  NewUser now id (vName d) (vEmail d) (vAge d) =
  Ok {| ID := id; Name := vName d; Email := vEmail d; Age := vAge d;
        CreatedAt := now; UpdatedAt := now |}.
Proof.
  intros (Hn%ValidName_shape & [He Hnorm]%ValidEmail_normal & Ha).
  pose proof (name_shape_trimmed _ Hn) as Htrim.
  unfold NewUser. rewrite Validate_valid;
    cbn [ID Name Email Age CreatedAt UpdatedAt]; rewrite ?Htrim, ?Hnorm; done.
Qed.

(** X21. Whatever [InvalidUserStruct] draws is rejected, with the error
    of the field that its case made invalid: [ErrInvalidUserName] in case
    0, [ErrInvalidUserEmail] in case 1, [ErrInvalidUserAge] in case 2. *)
Theorem InvalidUserStruct_is_rejected d now id :
  InvalidUserStruct d →
  NewUser now id (iName d) (iEmail d) (iAge d) =
  Err (if iCaseType d =? 0 then ErrInvalidUserName
       else if iCaseType d =? 1 then ErrInvalidUserEmail
       else ErrInvalidUserAge).
Proof.
  intros Hd. unfold NewUser.
  match goal with |- context [Validate ?x] =>
    destruct (Validate_result x)
      as [[Hn Hr] | [(Hn & He & Hr) | [(Hn & He & Ha & Hr) | (Hn & He & Ha & Hr)]]]
  end; rewrite Hr; cbn [ID Name Email Age CreatedAt UpdatedAt] in *;
  destruct Hd as [(-> & Hdn & Hde & Hda) | [(-> & Hdn & Hde & Hda)
                 | (-> & Hdn & Hde & Hda)]]; simpl; try done.
  all: try (apply InvalidName_shape in Hdn; done).
  all: try (apply ValidName_shape in Hdn as Hdn';
            rewrite (name_shape_trimmed _ Hdn') in Hn; done).
  all: try (apply InvalidEmail_shape in Hde; done).
  all: try (apply ValidEmail_normal in Hde as [Hde Hnorm];
            rewrite Hnorm in He; done).
  all: unfold ValidAge, InvalidAge in Hda; lia.
Qed.
End Generators.

(** ** The tests of creation and update, for every draw *)

Section Tests.
Import generators.
Context `{unicode.CaseRanges}.

(** A record made of a draw of [ValidUserStruct] passes [Validate] as it
    is. *)
Lemma valid_draw_Validate d id created updated :
  ValidUserStruct d →
  let u := {| ID := id; Name := vName d; Email := vEmail d; Age := vAge d;
              CreatedAt := created; UpdatedAt := updated |} in
  Validate u = (u, None).
Proof.
  intros (Hn%ValidName_shape & [He Hnorm]%ValidEmail_normal & Ha) u.
  pose proof (name_shape_trimmed _ Hn) as Htrim.
  rewrite Validate_valid; subst u;
    cbn [ID Name Email Age CreatedAt UpdatedAt]; rewrite ?Htrim, ?Hnorm; done.
Qed.

(** A draw of [ValidUserStruct], created in the new repository. *)
Lemma valid_draw_created d id now :
  ValidUserStruct d →
  let created := {| ID := id; Name := vName d; Email := vEmail d; Age := vAge d;
                    CreatedAt := now; UpdatedAt := now |} in
  CreateUser id now (vName d) (vEmail d) (vAge d) NewInMemoryUserRepository
  = (Ok created, {| users := <[id := created]> ∅;
                    emails := <[vEmail d := id]> ∅ |}).
Proof.
  intros Hd created. unfold CreateUser, NewUser.
  rewrite (valid_draw_Validate d id now now Hd). fold created.
  unfold Create. simpl. by rewrite !lookup_empty, Clone_same.
Qed.

(** X23. The test of creation with valid data passes for every draw: in
    a new repository [CreateUser] succeeds; the record it returns carries
    the id supplied and exactly the name, e-mail and age drawn, was not
    updated before it was created, is returned by [GetUser], and passes
    [Validate] again unchanged. *)
Theorem create_test_holds_for_every_draw d id now :
  ValidUserStruct d →
  ∃ created r',
    CreateUser id now (vName d) (vEmail d) (vAge d) NewInMemoryUserRepository
    = (Ok created, r') ∧
    ID created = id ∧ Name created = vName d ∧
    Email created = vEmail d ∧ Age created = vAge d ∧
    CreatedAt created <= UpdatedAt created ∧
    GetUser (ID created) r' = Ok created ∧
    Validate created = (created, None).
Proof.
  intros Hd. eexists _, _. split; [by apply valid_draw_created|].
  simpl. repeat split; try done.
  - unfold GetUser, GetByID. simpl. by rewrite lookup_insert_eq.
  - by apply (valid_draw_Validate d id now now).
Qed.

(** X24. The test of update with valid data passes for every two draws
    and every two clock readings in order: after the creation of the
    first draw in a new repository, [UpdateUser] with the second succeeds
    (whether or not the two e-mails are the same); the record it returns
    keeps the id and the creation time, is not older than the first,
    carries exactly the name, e-mail and age of the second draw, and is
    returned by [GetUser]. *)
Theorem update_test_holds_for_every_draw d1 d2 id now1 now2 :
  ValidUserStruct d1 → ValidUserStruct d2 → now1 <= now2 →
  ∃ created r1 updated r2,
    CreateUser id now1 (vName d1) (vEmail d1) (vAge d1) NewInMemoryUserRepository
    = (Ok created, r1) ∧
    UpdateUser now2 id (vName d2) (vEmail d2) (vAge d2) r1 = (Ok updated, r2) ∧
    ID updated = ID created ∧ CreatedAt updated = CreatedAt created ∧
    UpdatedAt created <= UpdatedAt updated ∧
    Name updated = vName d2 ∧ Email updated = vEmail d2 ∧
    Age updated = vAge d2 ∧
    GetUser (ID updated) r2 = Ok updated.
Proof.
  intros Hd1 Hd2 Hle.
  set (created := {| ID := id; Name := vName d1; Email := vEmail d1;
                     Age := vAge d1; CreatedAt := now1; UpdatedAt := now1 |}).
  set (r1 := {| users := <[id := created]> ∅; emails := <[vEmail d1 := id]> ∅ |}).
  set (updated := {| ID := id; Name := vName d2; Email := vEmail d2;
                     Age := vAge d2; CreatedAt := now1; UpdatedAt := now2 |}).
  assert (Hold : users r1 !! ID updated = Some created)
    by apply lookup_insert_eq.
  assert (∃ r2, Update updated r1 = (None, r2)) as [r2 Hu].
  { destruct (String.eqb_spec (Email created) (Email updated)) as [Heq|Hne].
    - eexists. by apply (Update_same_email updated created r1).
    - eexists. apply (Update_moved updated created r1); [done | done|].
      intros other. simpl. rewrite lookup_insert_ne by done.
      by rewrite lookup_empty. }
  exists created, r1, updated, r2.
  split; [by apply valid_draw_created|]. split.
  - unfold UpdateUser, GetByID.
    change (users r1 !! id = Some created) in Hold. rewrite Hold, Clone_same.
    change (CreatedAt created) with now1.
    rewrite (valid_draw_Validate d2 id now1 now2 Hd2). fold updated.
    by rewrite Hu.
  - simpl. repeat split; try done.
    unfold GetUser, GetByID. apply Update_ok_users in Hu as ->. simpl.
    by rewrite lookup_insert_eq.
Qed.
End Tests.

(** * The further properties on the sample data *)

(** X4 at the creation of [john] in the new repository. *)
Lemma Delete_undoes_Create_witness :
  Create john NewInMemoryUserRepository
  = (None, snd (Create john NewInMemoryUserRepository)) ∧
  Delete (ID john) (snd (Create john NewInMemoryUserRepository))
  = (None, NewInMemoryUserRepository).
Proof.
  assert (Hc : Create john NewInMemoryUserRepository
               = (None, snd (Create john NewInMemoryUserRepository)))
    by reflexivity.
  split; [exact Hc|]. exact (Delete_undoes_Create _ _ _ Hc).
Defined.

(** X5 at the update of [john] to [john_older]. *)
Lemma Update_idempotent_witness :
  Update john_older store_with_john
  = (None, snd (Update john_older store_with_john)) ∧
  Update john_older (snd (Update john_older store_with_john))
  = (None, snd (Update john_older store_with_john)).
Proof.
  assert (Hu : Update john_older store_with_john
               = (None, snd (Update john_older store_with_john)))
    by reflexivity.
  split; [exact Hu|]. exact (Update_idempotent _ _ _ Hu).
Defined.

(** X6 at the creation of [john] through the service. *)
Lemma created_user_found_by_email_witness :
  @CreateUser NoCaseRanges "id-1" 10 "John Doe" "John@Example.com" 30
    NewInMemoryUserRepository = (Ok john, store_with_john) ∧
  GetUserByEmail "john@example.com" store_with_john = Returns john.
Proof.
  assert (Hc : @CreateUser NoCaseRanges "id-1" 10 "John Doe" "John@Example.com" 30
                 NewInMemoryUserRepository = (Ok john, store_with_john))
    by reflexivity.
  split; [exact Hc|].
  exact (proj2 (@created_user_found_by_email NoCaseRanges _ _ _ _ _ _ _ _ Hc)).
Defined.

(** X7 at the store that holds [john]. *)
Lemma reachable_index_exact_witness :
  reachable (exec (OpCreate john) NewInMemoryUserRepository) ∧
  Z.of_nat (size (emails (exec (OpCreate john) NewInMemoryUserRepository)))
  = Count (exec (OpCreate john) NewInMemoryUserRepository).
Proof.
  assert (Hr : reachable (exec (OpCreate john) NewInMemoryUserRepository))
    by (apply reachable_exec, reachable_new).
  split; [exact Hr|]. exact (proj2 (reachable_index_exact _ Hr)).
Defined.

(** X8 at the store that holds [john]. *)
Lemma lookups_agree_witness :
  reachable (exec (OpCreate john) NewInMemoryUserRepository) ∧
  (GetByEmail "john@example.com" (exec (OpCreate john) NewInMemoryUserRepository)
   = Returns john ↔
   GetByID (ID john) (exec (OpCreate john) NewInMemoryUserRepository) = Ok john ∧
   Email john = "john@example.com"%string).
Proof.
  assert (Hr : reachable (exec (OpCreate john) NewInMemoryUserRepository))
    by (apply reachable_exec, reachable_new).
  split; [exact Hr|]. exact (lookups_agree _ "john@example.com" john Hr).
Defined.

(** X9 at the store that holds [john]. *)
Lemma Delete_removes_one_record_witness :
  reachable (exec (OpCreate john) NewInMemoryUserRepository) ∧
  users (exec (OpCreate john) NewInMemoryUserRepository) !! "id-1" = Some john ∧
  ∃ r', Delete "id-1" (exec (OpCreate john) NewInMemoryUserRepository) = (None, r') ∧
        GetByID "id-1" r' = Err ErrNotFound.
Proof.
  assert (Hr : reachable (exec (OpCreate john) NewInMemoryUserRepository))
    by (apply reachable_exec, reachable_new).
  assert (Hj : users (exec (OpCreate john) NewInMemoryUserRepository) !! "id-1"
               = Some john) by reflexivity.
  split; [exact Hr | split; [exact Hj|]].
  destruct (Delete_removes_one_record _ _ _ Hr Hj) as (r' & Hd & Hg & _).
  exists r'. split; [exact Hd | exact Hg].
Defined.

(** X10 at the update of [john] to [john_moved]. *)
Lemma Update_moves_the_index_witness :
  reachable (exec (OpCreate john) NewInMemoryUserRepository) ∧
  users (exec (OpCreate john) NewInMemoryUserRepository) !! ID john_moved
  = Some john ∧
  GetByEmail "john@example.com"
    (snd (Update john_moved (exec (OpCreate john) NewInMemoryUserRepository)))
  = Fails ErrNotFound.
Proof.
  assert (Hr : reachable (exec (OpCreate john) NewInMemoryUserRepository))
    by (apply reachable_exec, reachable_new).
  assert (Hj : users (exec (OpCreate john) NewInMemoryUserRepository)
                 !! ID john_moved = Some john) by reflexivity.
  assert (Hu : Update john_moved (exec (OpCreate john) NewInMemoryUserRepository)
            = (None, snd (Update john_moved
                            (exec (OpCreate john) NewInMemoryUserRepository))))
    by reflexivity.
  split; [exact Hr | split; [exact Hj|]].
  destruct (Update_moves_the_index _ _ _ _ Hr Hj Hu) as (_ & _ & Hold).
  apply Hold. discriminate.
Defined.

(** X15 and X16 at the store the service built with [john]. *)
Lemma served_store_is_consistent_witness :
  @served NoCaseRanges 10 store_with_john ∧
  GetUserByEmail "nobody@example.com" store_with_john ≠ Panics.
Proof.
  assert (Hs : @served NoCaseRanges 10 store_with_john).
  { apply (served_call 10 10 _ _ (served_new 10)). apply Z.le_refl. }
  split; [exact Hs|].
  exact (proj2 (proj2 (@served_store_is_consistent NoCaseRanges _ _
                         "nobody@example.com" Hs))).
Defined.

Lemma served_records_are_valid_witness :
  @served NoCaseRanges 10 store_with_john ∧
  users store_with_john !! "id-1" = Some john ∧
  name_shape (Name john) ∧ email_shape (Email john).
Proof.
  assert (Hs : @served NoCaseRanges 10 store_with_john).
  { apply (served_call 10 10 _ _ (served_new 10)). apply Z.le_refl. }
  assert (Hj : users store_with_john !! "id-1" = Some john) by reflexivity.
  split; [exact Hs | split; [exact Hj|]].
  destruct (@served_records_are_valid NoCaseRanges _ _ _ _ Hs Hj)
    as (_ & Hn & He & _).
  split; [exact Hn | exact He].
Defined.

(** X17 at the record that becomes [john], under the table that maps
    every rune above ASCII to itself. *)
Lemma Validate_idempotent_witness :
  (∀ r, unicode.MaxASCII < r → ¬ 65 <= @unicode.To_LowerCase NoCaseRanges r <= 90) ∧
  @Validate NoCaseRanges
    {| ID := "id-1"; Name := " John Doe "; Email := "John@Example.com"; Age := 30;
       CreatedAt := 10; UpdatedAt := 10 |} = (john, None) ∧
  @Validate NoCaseRanges john = (john, None).
Proof.
  assert (Ht : ∀ r, unicode.MaxASCII < r →
                    ¬ 65 <= @unicode.To_LowerCase NoCaseRanges r <= 90).
  { intros r Hr. simpl. unfold unicode.MaxASCII in Hr. lia. }
  assert (Hv : @Validate NoCaseRanges
            {| ID := "id-1"; Name := " John Doe "; Email := "John@Example.com";
               Age := 30; CreatedAt := 10; UpdatedAt := 10 |} = (john, None))
    by reflexivity.
  split; [exact Ht | split; [exact Hv|]].
  exact (@Validate_idempotent NoCaseRanges Ht _ _ Hv).
Defined.

(** X18 at an update of [john] that spells his e-mail in capitals. *)
Lemma UpdateUser_own_email_witness :
  users store_with_john !! "id-1" = Some john ∧
  gostrings.TrimSpace (@gostrings.ToLower NoCaseRanges "JOHN@EXAMPLE.COM")
  = Email john ∧
  fst (@UpdateUser NoCaseRanges 12 "id-1" "John Doe" "JOHN@EXAMPLE.COM" 31
         store_with_john) = Ok john_older.
Proof.
  assert (Hj : users store_with_john !! "id-1" = Some john) by reflexivity.
  assert (Hn : name_shape (gostrings.TrimSpace "John Doe"))
    by (apply name_checks; split; reflexivity).
  assert (He : email_shape
            (gostrings.TrimSpace (@gostrings.ToLower NoCaseRanges "JOHN@EXAMPLE.COM")))
    by (apply MatchString_emailRegex; reflexivity).
  assert (Ha : 1 <= 31 <= 150) by lia.
  assert (Hown : gostrings.TrimSpace
                   (@gostrings.ToLower NoCaseRanges "JOHN@EXAMPLE.COM")
                 = Email john) by reflexivity.
  split; [exact Hj | split; [exact Hown|]].
  rewrite (@UpdateUser_own_email NoCaseRanges 12 _ _ _ _ _ _ Hj Hn He Ha Hown).
  reflexivity.
Defined.

(** X19 at the store that holds [john], for a second user who gives his
    e-mail. *)
Lemma held_email_cannot_be_taken_witness :
  @served NoCaseRanges 10 store_with_john ∧
  users store_with_john !! "id-1" = Some john ∧
  @CreateUser NoCaseRanges "id-2" 11 "Jane" "John@Example.com" 25 store_with_john
  = (Err ErrAlreadyExists, store_with_john).
Proof.
  assert (Hs : @served NoCaseRanges 10 store_with_john).
  { apply (served_call 10 10 _ _ (served_new 10)). apply Z.le_refl. }
  assert (Hj : users store_with_john !! "id-1" = Some john) by reflexivity.
  assert (Hn : name_shape (gostrings.TrimSpace "Jane"))
    by (apply name_checks; split; reflexivity).
  assert (He : email_shape
            (gostrings.TrimSpace (@gostrings.ToLower NoCaseRanges "John@Example.com")))
    by (apply MatchString_emailRegex; reflexivity).
  assert (Ha : 1 <= 25 <= 150) by lia.
  split; [exact Hs | split; [exact Hj|]].
  exact (proj1 (@held_email_cannot_be_taken NoCaseRanges _ _ _ _ 11 _ _ _
                  Hs Hj Hn He Ha eq_refl) "id-2").
Defined.

(** X20 and X21 at two draws. *)
Lemma ValidUserStruct_is_accepted_witness :
  generators.ValidUserStruct drawn_valid ∧
  @NewUser NoCaseRanges 10 "id-7" (generators.vName drawn_valid)
    (generators.vEmail drawn_valid) (generators.vAge drawn_valid)
  = Ok {| ID := "id-7"; Name := "John Doe";
          Email := "user17300000000000000004711@test.org"; Age := 30;
          CreatedAt := 10; UpdatedAt := 10 |}.
Proof.
  assert (Hd : generators.ValidUserStruct drawn_valid).
  { split; [|split].
    - apply list_elem_of_In. simpl. do 26 right. left. reflexivity.
    - exists "user"%string, 1730000000000000000, 4711, "test.org"%string.
      split; [|split; [|reflexivity]]; apply list_elem_of_In; simpl.
      + left. reflexivity.
      + right. left. reflexivity.
    - unfold generators.ValidAge. simpl. lia. }
  split; [exact Hd|].
  exact (@ValidUserStruct_is_accepted NoCaseRanges _ 10 "id-7" Hd).
Defined.

Lemma InvalidUserStruct_is_rejected_witness :
  generators.InvalidUserStruct drawn_invalid ∧
  @NewUser NoCaseRanges 10 "id-7" (generators.iName drawn_invalid)
    (generators.iEmail drawn_invalid) (generators.iAge drawn_invalid)
  = Err ErrInvalidUserName.
Proof.
  assert (Hd : generators.InvalidUserStruct drawn_invalid).
  { left. split; [reflexivity|]. split; [|split].
    - apply list_elem_of_In. simpl. do 7 right. left. reflexivity.
    - exists "user"%string, 1730000000000000000, 4711, "test.org"%string.
      split; [|split; [|reflexivity]]; apply list_elem_of_In; simpl.
      + left. reflexivity.
      + right. left. reflexivity.
    - unfold generators.ValidAge. simpl. lia. }
  split; [exact Hd|].
  exact (@InvalidUserStruct_is_rejected NoCaseRanges _ 10 "id-7" Hd).
Defined.

(** X22 at the store that holds [john]. *)
Lemma deleting_every_id_empties_the_store_witness :
  reachable (exec (OpCreate john) NewInMemoryUserRepository) ∧
  deleteEach ["id-0"; "id-1"; "id-1"]%string
    (exec (OpCreate john) NewInMemoryUserRepository)
  = NewInMemoryUserRepository.
Proof.
  assert (Hr : reachable (exec (OpCreate john) NewInMemoryUserRepository))
    by (apply reachable_exec, reachable_new).
  split; [exact Hr|].
  apply (deleting_every_id_empties_the_store _ _ Hr).
  intros id [u Hu].
  change (<[ID john := Clone john]> (∅ : gmap string User) !! id = Some u) in Hu.
  apply lookup_insert_Some in Hu as [[<- _] | [_ Hu]].
  - apply elem_of_cons. right. apply elem_of_cons. left. reflexivity.
  - rewrite lookup_empty in Hu. discriminate Hu.
Defined.

(** X23 and X24 at the sample draw, updated with itself two ticks later. *)
Lemma drawn_valid_is_drawn : generators.ValidUserStruct drawn_valid.
Proof.
  split; [|split].
  - apply list_elem_of_In. simpl. do 26 right. left. reflexivity.
  - exists "user"%string, 1730000000000000000, 4711, "test.org"%string.
    split; [|split; [|reflexivity]]; apply list_elem_of_In; simpl.
    + left. reflexivity.
    + right. left. reflexivity.
  - unfold generators.ValidAge. simpl. lia.
Defined.

Lemma create_test_holds_for_every_draw_witness :
  generators.ValidUserStruct drawn_valid ∧
  ∃ created r',
    @CreateUser NoCaseRanges "id-7" 10 (generators.vName drawn_valid)
      (generators.vEmail drawn_valid) (generators.vAge drawn_valid)
      NewInMemoryUserRepository = (Ok created, r') ∧
    GetUser (ID created) r' = Ok created.
Proof.
  split; [exact drawn_valid_is_drawn|].
  destruct (@create_test_holds_for_every_draw NoCaseRanges _ "id-7" 10
              drawn_valid_is_drawn)
    as (created & r' & Hc & _ & _ & _ & _ & _ & Hg & _).
  exists created, r'. split; [exact Hc | exact Hg].
Defined.

Lemma update_test_holds_for_every_draw_witness :
  generators.ValidUserStruct drawn_valid ∧ 10 <= 12 ∧
  ∃ created r1 updated r2,
    @CreateUser NoCaseRanges "id-7" 10 (generators.vName drawn_valid)
      (generators.vEmail drawn_valid) (generators.vAge drawn_valid)
      NewInMemoryUserRepository = (Ok created, r1) ∧
    @UpdateUser NoCaseRanges 12 "id-7" (generators.vName drawn_valid)
      (generators.vEmail drawn_valid) (generators.vAge drawn_valid) r1
    = (Ok updated, r2) ∧
    UpdatedAt created <= UpdatedAt updated.
Proof.
  assert (Hle : 10 <= 12) by discriminate.
  split; [exact drawn_valid_is_drawn | split; [exact Hle|]].
  destruct (@update_test_holds_for_every_draw NoCaseRanges _ _ "id-7" 10 12
              drawn_valid_is_drawn drawn_valid_is_drawn Hle)
    as (created & r1 & updated & r2 & Hc & Hu & _ & _ & Hup & _).
  exists created, r1, updated, r2.
  split; [exact Hc | split; [exact Hu | exact Hup]].
Defined.
